(** * Runbook frontend: the action store, the SSE event handler, the task
    board's tier layout and the dependency selector.

    Shallow embedding of
      - [frontend/src/types/index.ts]            (Task, CodeExecutionState,
                                                  computeTiers, buildIndexMap)
      - [frontend/src/stores/action-store.ts]    (the zustand store)
      - [lib/sse]                                (createSSEConnection)
      - [frontend/src/hooks/use-action-events.ts] (the event handler)
      - [frontend/src/components/workspace/add-task-dialog.tsx]
                                                 (toggleDep, twice)
      - [frontend/src/components/workspace/task-card.tsx]
                                                 (what a card displays)
      - [workspace/workspace-header]             (status, Run button)
      - [workspace/task-logs-drawer]             (allLogs)
      - [frontend/src/components/agents/tool-selector.tsx]
                                                 (toggle, byCategory)
      - [frontend/src/components/agents/agent-builder-form.tsx]
                                                 (slugify)
    and a model of the mutation engine's [edit], which lives in the
    backend.

    JavaScript objects used as dictionaries are [gmap string _], the map
    of their own properties; object spread [{...a, ...b}] is the
    left-biased union [b ∪ a].  A read [obj[key]] goes through
    [Object.prototype]: where the member found there changes what the
    code does ([appendTaskLog], [setCodeExecution], the grouping loops),
    the read is [getProp]. *)

From stdpp Require Import gmap strings list fin_maps relations sets.
From Stdlib Require Import ZArith Ascii.

Open Scope string_scope.
Open Scope list_scope.
Open Scope nat_scope.

(** ** Data model ([types/index.ts]) *)

Record Task := mkTask {
  id : string;
  action_id : string;
  prompt : string;
  status : string;            (* "pending" | "running" | "completed" | "failed" *)
  agent_type : string;
  model : option string;      (* string | null *)
  dependencies : list string;
  output_summary : option string; (* string | null *)
  created_at : string;
  updated_at : string;
}.

Record CodeExecutionState := mkCode {
  ce_status : string;         (* "idle" | "running" | "completed" | "failed" *)
  stdout : string;
  stderr : string;
  artifactIds : list string;
}.

(** [Partial<CodeExecutionState>]: every field may be absent.  The
    objects held in the store's [codeExecutions] are of this kind at run
    time, see [setCodeExecution]. *)
Record PartialCode := mkPartialCode {
  pc_status : option string;
  pc_stdout : option string;
  pc_stderr : option string;
  pc_artifactIds : option (list string);
}.

(** A [CodeExecutionState] as an object, all four fields present. *)
Definition fullCode (s : CodeExecutionState) : PartialCode :=
  mkPartialCode (Some (ce_status s)) (Some (stdout s)) (Some (stderr s))
                (Some (artifactIds s)).

(** An object without any of the four fields. *)
Definition noCode : PartialCode := mkPartialCode None None None None.

(** Values held by the fields of a [Partial<Task>]. *)
Inductive jsval :=
  | JNull
  | JStr (s : string)
  | JArr (l : list string).

(** [string | null] as a JavaScript value. *)
Definition js_of_nullable (o : option string) : jsval :=
  match o with Some s => JStr s | None => JNull end.

(** A [Partial<Task>] is an object with some of the fields of a task. *)
Abbreviation PartialTask := (gmap string jsval).

Record LogLine := mkLog {
  level : string;
  message : string;
  timestamp : string;
}.

(** ** Reading a property of a plain object

    The store's dictionaries and the grouping objects are plain objects,
    whose prototype is [Object.prototype].  [obj[key]] gives the own
    property when there is one, else the member of [Object.prototype] of
    that name, else [undefined]. *)

(** The property names of [Object.prototype] (ECMAScript, Annex B
    included).  Their values are functions, and for ["__proto__"] the
    prototype object itself: all truthy, none iterable, none with an own
    enumerable property, none with a [push] member. *)
Definition objectPrototypeKeys : list string :=
  [ "constructor"; "__defineGetter__"; "__defineSetter__"; "hasOwnProperty";
    "__lookupGetter__"; "__lookupSetter__"; "isPrototypeOf";
    "propertyIsEnumerable"; "toString"; "valueOf"; "__proto__";
    "toLocaleString" ].

Inductive jsProp (V : Type) :=
  | Own (v : V)
  | Inherited
  | Undefined.
Arguments Own {V} v.
Arguments Inherited {V}.
Arguments Undefined {V}.

(** [obj[key]] *)
Definition getProp {V} (obj : gmap string V) (key : string) : jsProp V :=
  match obj !! key with
  | Some v => Own v
  | None => if bool_decide (key ∈ objectPrototypeKeys) then Inherited
            else Undefined
  end.

(** [obj[key]] finds a member of [Object.prototype]: [key] names one and
    [obj] has no own property of that name. *)
Definition readsInherited {V} (obj : gmap string V) (key : string) : Prop :=
  obj !! key = None ∧ key ∈ objectPrototypeKeys.

(** ** The store ([stores/action-store.ts]) *)

Record ActionStore := mkStore {
  currentActionId : string;
  taskOverrides : gmap string PartialTask;
  actionStatus : option string;
  recoveryAttempt : option Z;
  taskLogs : gmap string (list LogLine);
  codeExecutions : gmap string PartialCode;
}.

Definition defaultCodeState : CodeExecutionState :=
  mkCode "idle" "" "" [].

Definition initialStore : ActionStore :=
  mkStore "" ∅ None None ∅ ∅.

(** [{...base, ...data}] for code execution states: a field of [data]
    if it has it, else the field of [base], if any. *)
Definition spreadField {T} (base data : option T) : option T :=
  match data with
  | Some v => Some v
  | None => base
  end.

Definition mergeCode (base data : PartialCode) : PartialCode :=
  mkPartialCode (spreadField (pc_status base) (pc_status data))
                (spreadField (pc_stdout base) (pc_stdout data))
                (spreadField (pc_stderr base) (pc_stderr data))
                (spreadField (pc_artifactIds base) (pc_artifactIds data)).

Definition setTaskOverride (taskId : string) (override : PartialTask)
    (st : ActionStore) : ActionStore :=
  mkStore (currentActionId st)
          (<[taskId := override ∪ default ∅ (taskOverrides st !! taskId)]>
             (taskOverrides st))
          (actionStatus st) (recoveryAttempt st) (taskLogs st)
          (codeExecutions st).

Definition setActionStatus (s : string) (st : ActionStore) : ActionStore :=
  mkStore (currentActionId st) (taskOverrides st) (Some s)
          (recoveryAttempt st) (taskLogs st) (codeExecutions st).

Definition setRecoveryAttempt (attempt : option Z) (st : ActionStore)
  : ActionStore :=
  mkStore (currentActionId st) (taskOverrides st) (actionStatus st)
          attempt (taskLogs st) (codeExecutions st).

(** [now] is the value of [new Date().toISOString()] at the call.

    [[...(state.taskLogs[taskId] || []), entry]]: an own list is
    extended, [undefined] gives the one-entry list, and a member
    inherited from [Object.prototype] is truthy and not iterable, so the
    array spread throws a [TypeError] inside the updater and the state is
    not set: [None]. *)
Definition appendTaskLog (now : string) (taskId : string)
    (lvl msg : string) (st : ActionStore) : option ActionStore :=
  let put (old : list LogLine) :=
    mkStore (currentActionId st) (taskOverrides st) (actionStatus st)
            (recoveryAttempt st)
            (<[taskId := old ++ [mkLog lvl msg now]]> (taskLogs st))
            (codeExecutions st) in
  match getProp (taskLogs st) taskId with
  | Own old => Some (put old)
  | Undefined => Some (put [])
  | Inherited => None
  end.

Definition resetForAction (actionId : string) (st : ActionStore)
  : ActionStore :=
  mkStore actionId ∅ None None ∅ ∅.

Definition resetLogs (taskId : string) (st : ActionStore) : ActionStore :=
  mkStore (currentActionId st) (taskOverrides st) (actionStatus st)
          (recoveryAttempt st) (delete taskId (taskLogs st))
          (codeExecutions st).

(** [{...(state.codeExecutions[taskId] || defaultCodeState), ...data}]:
    an own object is the base, [undefined] gives [defaultCodeState], and
    a member inherited from [Object.prototype] is truthy and spreads to
    nothing, so the object stored has the fields of [data] only. *)
Definition setCodeExecution (taskId : string) (data : PartialCode)
    (st : ActionStore) : ActionStore :=
  let base :=
    match getProp (codeExecutions st) taskId with
    | Own old => old
    | Undefined => fullCode defaultCodeState
    | Inherited => noCode
    end in
  mkStore (currentActionId st) (taskOverrides st) (actionStatus st)
          (recoveryAttempt st) (taskLogs st)
          (<[taskId := mergeCode base data]> (codeExecutions st)).

(** ** The event handler ([hooks/use-action-events.ts]) *)

(** The parsed body of an event, [Record<string, unknown>] in the source.
    Each field the handler reads has the type the handler's cast gives
    it; [d_status] is tested for presence before use and [d_artifact_ids]
    has a fallback, so both may be absent. *)
Record EventData := mkData {
  d_tasks : list Task;
  d_status : option string;
  d_task_id : string;
  d_output_summary : string;
  d_error : string;
  d_level : string;
  d_message : string;
  d_attempt : Z;
  d_artifact_ids : option (list string);
  d_stdout_preview : string;
  d_stderr : string;
}.

(** What the hook owns besides the store: the error counter
    ([errorCountRef]) and the query keys handed to
    [queryClient.invalidateQueries], oldest first. *)
Record Client := mkClient {
  store : ActionStore;
  errorCount : nat;
  invalidated : list (list string);
}.

Definition withStore (f : ActionStore → ActionStore) (c : Client) : Client :=
  mkClient (f (store c)) (errorCount c) (invalidated c).

(** A store action that may throw, as the last statement of a case: when
    it throws the store is left as it is and the exception leaves the
    handler; its only caller, the listener of [createSSEConnection],
    catches it. *)
Definition withStoreTry (f : ActionStore → option ActionStore) (c : Client)
  : Client :=
  match f (store c) with
  | Some st => mkClient st (errorCount c) (invalidated c)
  | None => c
  end.

Definition invalidateQueries (key : list string) (c : Client) : Client :=
  mkClient (store c) (errorCount c) (invalidated c ++ [key]).

(** Truthiness of a string: only the empty string is falsy. *)
Definition truthy (s : string) : bool := negb (String.eqb s "").

(** [a || b] on strings. *)
Definition str_or (a b : string) : string := if truthy a then a else b.

(** The override built from a snapshot task. *)
Definition snapshotOverride (t : Task) : PartialTask :=
  {[ "status" := JStr (status t);
     "output_summary" := js_of_nullable (output_summary t) ]}.

(** [currentId && currentId !== actionId]: the store is showing another
    action than the one this subscription was opened for. *)
Definition otherAction (currentId actionId : string) : bool :=
  truthy currentId && negb (String.eqb currentId actionId).

(** The callback passed to [createSSEConnection]. *)
Definition onEvent (actionId now : string) (event : string)
    (data : EventData) (c : Client) : Client :=
  if otherAction (currentActionId (store c)) actionId then c
  else
    let c := mkClient (store c) 0 (invalidated c) in
    if String.eqb event "snapshot" then
      let c := foldl (λ c t, withStore (setTaskOverride (id t)
                                          (snapshotOverride t)) c)
                     c (d_tasks data) in
      match d_status data with
      | Some s => if truthy s then withStore (setActionStatus s) c else c
      | None => c
      end
    else if String.eqb event "task.started" then
      withStore (setTaskOverride (d_task_id data)
                   {[ "status" := JStr "running" ]}) c
    else if String.eqb event "task.completed" then
      invalidateQueries ["action"; actionId]
        (withStore (setTaskOverride (d_task_id data)
                      {[ "status" := JStr "completed";
                         "output_summary" := JStr (d_output_summary data) ]})
                   c)
    else if String.eqb event "task.failed" then
      withStore (setTaskOverride (d_task_id data)
                   {[ "status" := JStr "failed";
                      "output_summary" := JStr (d_error data) ]}) c
    else if String.eqb event "log.append" then
      withStoreTry (appendTaskLog now (d_task_id data)
                      (d_level data) (d_message data)) c
    else if String.eqb event "action.completed" then
      invalidateQueries ["actions"]
        (invalidateQueries ["action"; actionId]
           (withStore (setRecoveryAttempt None)
              (withStore (setActionStatus "completed") c)))
    else if String.eqb event "action.failed" then
      invalidateQueries ["actions"]
        (invalidateQueries ["action"; actionId]
           (withStore (setRecoveryAttempt None)
              (withStore (setActionStatus "failed") c)))
    else if String.eqb event "action.started" then
      withStore (setActionStatus "running") c
    else if String.eqb event "action.retrying" then
      invalidateQueries ["action"; actionId]
        (withStore (setRecoveryAttempt (Some (d_attempt data)))
           (withStore (setActionStatus "running") c))
    else if String.eqb event "task.recovered" then
      invalidateQueries ["action"; actionId] c
    else if String.eqb event "code.started" then
      withStore (setCodeExecution (d_task_id data)
                   (mkPartialCode (Some "running") (Some "") (Some "")
                                  (Some []))) c
    else if String.eqb event "code.completed" then
      invalidateQueries ["action"; actionId]
        (withStore (setCodeExecution (d_task_id data)
                      (mkPartialCode (Some "completed")
                         (Some (str_or (d_stdout_preview data) ""))
                         None
                         (Some (default [] (d_artifact_ids data)))))
                   c)
    else if String.eqb event "code.failed" then
      withStore (setCodeExecution (d_task_id data)
                   (mkPartialCode (Some "failed") None
                      (Some (str_or (d_stderr data)
                               (str_or (d_error data) "")))
                      None)) c
    else if String.eqb event "code.log" then
      withStoreTry (appendTaskLog now (d_task_id data)
                      (d_level data) (d_message data)) c
    else c.

(** ** The SSE client ([lib/sse]: createSSEConnection) *)

Definition eventTypes : list string :=
  [ "snapshot"; "task.started"; "task.completed"; "task.failed";
    "task.retrying"; "log.append"; "action.completed"; "action.failed";
    "action.started"; "code.started"; "code.completed"; "code.failed";
    "code.log"; "ping" ].

(** One listener per element of [eventTypes].  An event named [type]
    arriving on the stream runs the listeners registered for that name,
    in registration order; [parsed] is the result of [JSON.parse] on its
    body, [None] when parsing throws (the listener ignores the error, as
    it does an exception thrown by the handler). *)
Definition sseDeliver (handler : string → EventData → Client → Client)
    (type : string) (parsed : option EventData) (c : Client) : Client :=
  foldl (λ c registered,
           if String.eqb registered type then
             match parsed with
             | Some data => handler registered data c
             | None => c
             end
           else c)
        c eventTypes.

(** The event kinds of the per-action stream, as the specification lists
    them. *)
Definition specEventKinds : list string :=
  [ "snapshot"; "action.started"; "action.completed"; "action.failed";
    "action.retrying"; "task.started"; "task.completed"; "task.failed";
    "task.retrying"; "task.recovered"; "log.append"; "ping" ].

(** ** What a task card shows ([workspace/task-card.tsx]) *)

(** [taskOverrides[taskId]?.[field]] *)
Definition overlayField (st : ActionStore) (taskId field : string)
  : option jsval :=
  taskOverrides st !! taskId ≫= (.!! field).

Definition js_truthy (v : jsval) : bool :=
  match v with
  | JNull => false
  | JStr s => truthy s
  | JArr _ => true
  end.

(** [override?.status || task.status] *)
Definition cardStatus (task : Task) (st : ActionStore) : jsval :=
  match overlayField st (id task) "status" with
  | Some v => if js_truthy v then v else JStr (status task)
  | None => JStr (status task)
  end.

(** [override?.output_summary ?? task.output_summary] *)
Definition cardOutputSummary (task : Task) (st : ActionStore) : jsval :=
  match overlayField st (id task) "output_summary" with
  | Some JNull | None => js_of_nullable (output_summary task)
  | Some v => v
  end.

(** The text of the "Error output" box, [None] when the box is not
    rendered: [outputSummary && status === "failed"]. *)
Definition cardErrorOutput (task : Task) (st : ActionStore) : option jsval :=
  let os := cardOutputSummary task st in
  match cardStatus task st with
  | JStr s => if js_truthy os && String.eqb s "failed" then Some os else None
  | _ => None
  end.

(** ** The dependency selector ([workspace/add-task-dialog.tsx]) *)

(** The updater [toggleDep] hands to [setSelectedDeps]; the dialog and the
    card editor define it identically. *)
Definition toggleDep (prev : list string) (taskId : string) : list string :=
  if bool_decide (taskId ∈ prev)
  then filter (λ i, i ≠ taskId) prev
  else prev ++ [taskId].

(** ** Tier layout of the task board ([computeTiers], [buildIndexMap]) *)

(** The numbers [getTier] can produce: [Math.max()] of no arguments is
    [-Infinity], and [-Infinity + 1] is [-Infinity]. *)
Inductive jsnum :=
  | NegInfinity
  | Num (n : nat).

Definition js_max (a b : jsnum) : jsnum :=
  match a, b with
  | NegInfinity, x | x, NegInfinity => x
  | Num a, Num b => Num (a `max` b)
  end.

Definition Math_max (vs : list jsnum) : jsnum := foldr js_max NegInfinity vs.

Definition js_succ (v : jsnum) : jsnum :=
  match v with
  | NegInfinity => NegInfinity
  | Num n => Num (S n)
  end.

(** How a call ends. *)
Inductive outcome (A : Type) :=
  | Returns (a : A)
  | Throws            (* a TypeError *)
  | Overflows.        (* the recursion exceeds the available depth *)
Arguments Returns {A} a.
Arguments Throws {A}.
Arguments Overflows {A}.

(** [new Map(tasks.map((t) => [t.id, t]))]: a later entry replaces an
    earlier one with the same key. *)
Definition mkTaskMap (tasks : list Task) : gmap string Task :=
  foldl (λ m t, <[id t := t]> m) ∅ tasks.

(** [ds.map(f)] where [f] reads and updates the memo table; [None] when a
    call runs out of depth. *)
Fixpoint mapTiers (f : string → gmap string jsnum
                       → option (jsnum * gmap string jsnum))
    (ds : list string) (tierOf : gmap string jsnum)
  : option (list jsnum * gmap string jsnum) :=
  match ds with
  | [] => Some ([], tierOf)
  | d :: ds =>
      match f d tierOf with
      | None => None
      | Some (v, tierOf) =>
          match mapTiers f ds tierOf with
          | None => None
          | Some (vs, tierOf) => Some (v :: vs, tierOf)
          end
      end
  end.

(** [getTier], with the memo table [tierOf] threaded through and the
    recursion depth bounded by [fuel]. *)
Fixpoint getTier (taskMap : gmap string Task) (fuel : nat) (i : string)
    (tierOf : gmap string jsnum) : option (jsnum * gmap string jsnum) :=
  match fuel with
  | 0 => None
  | S fuel =>
      match tierOf !! i with
      | Some v => Some (v, tierOf)
      | None =>
          match taskMap !! i with
          | None => Some (Num 0, <[i := Num 0]> tierOf)
          | Some task =>
              if bool_decide (dependencies task = [])
              then Some (Num 0, <[i := Num 0]> tierOf)
              else
                match mapTiers (getTier taskMap fuel)
                        (filter (λ d, is_Some (taskMap !! d))
                                (dependencies task)) tierOf with
                | None => None
                | Some (vs, tierOf) =>
                    let tier := js_succ (Math_max vs) in
                    Some (tier, <[i := tier]> tierOf)
                end
          end
      end
  end.

(** First loop: [for (const task of tasks) getTier(task.id)]. *)
Fixpoint fillTiers (taskMap : gmap string Task) (fuel : nat)
    (tasks : list Task) (tierOf : gmap string jsnum)
  : option (gmap string jsnum) :=
  match tasks with
  | [] => Some tierOf
  | task :: tasks =>
      match getTier taskMap fuel (id task) tierOf with
      | None => None
      | Some (_, tierOf) => fillTiers taskMap fuel tasks tierOf
      end
  end.

(** [tierOf.get(task.id) || 0] *)
Definition tierOrZero (tierOf : gmap string jsnum) (i : string) : jsnum :=
  match tierOf !! i with
  | Some (Num 0) | None => Num 0
  | Some v => v
  end.

(** One round of the second loop: grow [tiers] until index [tier] exists,
    then push the task there.  With [tier = -Infinity] nothing is grown
    and [tiers[tier]] is undefined, so the push throws. *)
Definition placeTask (tierOf : gmap string jsnum) (tiers : list (list Task))
    (task : Task) : option (list (list Task)) :=
  match tierOrZero tierOf (id task) with
  | NegInfinity => None
  | Num n =>
      let tiers := tiers ++ replicate (S n - length tiers) [] in
      Some (alter (λ tier, tier ++ [task]) n tiers)
  end.

Fixpoint placeTasks (tierOf : gmap string jsnum) (tiers : list (list Task))
    (tasks : list Task) : option (list (list Task)) :=
  match tasks with
  | [] => Some tiers
  | task :: tasks =>
      match placeTask tierOf tiers task with
      | None => None
      | Some tiers => placeTasks tierOf tiers tasks
      end
  end.

Definition computeTiers (fuel : nat) (tasks : list Task)
  : outcome (list (list Task)) :=
  let taskMap := mkTaskMap tasks in
  match fillTiers taskMap fuel tasks ∅ with
  | None => Overflows
  | Some tierOf =>
      match placeTasks tierOf [] tasks with
      | None => Throws
      | Some tiers => Returns tiers
      end
  end.

(** [buildIndexMap]: number the tasks tier after tier. *)
Definition buildIndexMap (tiers : list (list Task)) : gmap string nat :=
  fst (foldl (λ acc tier,
                foldl (λ '(m, idx) task, (<[id task := idx]> m, S idx))
                      acc tier)
             (∅, 0) tiers).

(** Sample tasks: the diamond of the specification's scenario B. *)
Definition sampleTask (i : string) (deps : list string) : Task :=
  mkTask i "a1" "do it" "pending" "general" None deps None "" "".

Definition diamond : list Task :=
  [ sampleTask "T4" ["T2"; "T3"]; sampleTask "T1" [];
    sampleTask "T3" ["T1"]; sampleTask "T2" ["T1"] ].

(** ** The mutation engine's [edit] (backend)

    The engine and the graph store are server code; the frontend only
    sends the patch ([updateTask]) and tells the user that "Saving will
    reset this task and all downstream tasks to pending".  What follows is
    written from sections 3, 4.2 and 4.5 of the specification. *)

(** Modelled from the spec: the task statuses of section 3. *)
Inductive TaskStatus := Pending | Running | Completed | Failed.

(** Modelled from the spec: a task output of section 3, a short summary
    and references to its artifacts. *)
Record TaskOutput := mkOutput {
  out_summary : string;
  out_artifacts : list string;
}.

(** Modelled from the spec: a task as the graph store holds it
    (section 3); [n_output] is the attached current output, if any. *)
Record TaskNode := mkNode {
  n_prompt : string;
  n_agent_type : string;
  n_model : option string;
  n_status : TaskStatus;
  n_dependencies : list string;
  n_summary : option string;
  n_output : option TaskOutput;
}.

(** Modelled from the spec: the stored state of one action, its tasks by
    identifier and the artifact records (identifier to storage path). *)
Record GraphStore := mkGraph {
  nodes : gmap string TaskNode;
  artifacts : gmap string string;
}.

(** Modelled from the spec: the patch of [update_task] in section 4.2,
    [{prompt?, agent_type?, model?, dependencies?}]. *)
Record Patch := mkPatch {
  p_prompt : option string;
  p_agent_type : option string;
  p_model : option (option string);
  p_dependencies : option (list string);
}.

(** Modelled from the spec: step 2 of [Edit], apply the patch to the
    task; status, summary and output are not part of a patch. *)
Definition applyPatch (n : TaskNode) (p : Patch) : TaskNode :=
  mkNode (default (n_prompt n) (p_prompt p))
         (default (n_agent_type n) (p_agent_type p))
         (default (n_model n) (p_model p))
         (n_status n)
         (default (n_dependencies n) (p_dependencies p))
         (n_summary n) (n_output n).

(** Modelled from the spec: the graph store's [dependents] query of
    section 4.2, lifted to a set of targets: the tasks one of whose
    dependencies lies in [targets]. *)
Definition dependents (g : gmap string TaskNode) (targets : gset string)
  : gset string :=
  dom (filter (λ kv, Exists (λ d, d ∈ targets) (n_dependencies kv.2)) g).

(** Modelled from the spec: [transitive_dependents] of section 4.5, the
    dependents of the task, their dependents, and so on.  One round per
    stored task is enough to reach every one of them. *)
Definition transitive_dependents (g : gmap string TaskNode) (t : string)
  : gset string :=
  Nat.iter (size g) (λ acc, acc ∪ dependents g acc) (dependents g {[t]}).

(** Modelled from the spec: step 3 of [Edit] in section 4.5,
    [{task_id} ∪ transitive_dependents(task_id)]. *)
Definition invalidation_set (g : gmap string TaskNode) (t : string)
  : gset string :=
  {[t]} ∪ transitive_dependents g t.

(** Modelled from the spec: the validation of step 2 of [Edit], the graph
    is dependency-closed and acyclic (no task is among its own transitive
    dependents). *)
Definition validGraph (g : gmap string TaskNode) : bool :=
  bool_decide (map_Forall (λ _ n, Forall (λ d, d ∈ dom g) (n_dependencies n)) g)
  && bool_decide (set_Forall (λ x, x ∉ transitive_dependents g x) (dom g)).

(** Modelled from the spec: [reset_tasks] of section 4.2 on one task:
    status [pending], summary cleared, output detached. *)
Definition resetNode (n : TaskNode) : TaskNode :=
  mkNode (n_prompt n) (n_agent_type n) (n_model n) Pending
         (n_dependencies n) None None.

(** Modelled from the spec: [reset_tasks([task_ids])] of section 4.2. *)
Definition reset_tasks (g : gmap string TaskNode) (ids : gset string)
  : gmap string TaskNode :=
  map_imap (λ x n, Some (if bool_decide (x ∈ ids) then resetNode n else n)) g.

(** Modelled from the spec: [Edit(task_id, patch)] of section 4.5, steps
    2, 3 and 5 (the lock and the cancellation of in-flight work are not
    part of the stored state).  [None] when the task is unknown or the
    patched graph is rejected.  Artifact records are never deleted. *)
Definition edit (s : GraphStore) (t : string) (p : Patch)
  : option GraphStore :=
  match nodes s !! t with
  | None => None
  | Some n =>
      let g := <[t := applyPatch n p]> (nodes s) in
      if validGraph g
      then Some (mkGraph (reset_tasks g (invalidation_set g t)) (artifacts s))
      else None
  end.

(** [x] lists [d] among its dependencies. *)
Definition node_depends (g : gmap string TaskNode) (x d : string) : Prop :=
  ∃ n, g !! x = Some n ∧ d ∈ n_dependencies n.

(** The chain T1 <- T2 <- T3 of the specification's scenario E, with T1
    completed and T2 running. *)
Definition chainStore : GraphStore :=
  mkGraph
    {[ "T1" := mkNode "fetch" "data_retrieval" None Completed []
                 (Some "done") (Some (mkOutput "done" ["art1"]));
       "T2" := mkNode "fit" "code_execution" None Running ["T1"] None None;
       "T3" := mkNode "report" "report" None Pending ["T2"] None None ]}
    {[ "art1" := "/files/art1" ]}.

Definition promptPatch (s : string) : Patch :=
  mkPatch (Some s) None None None.

(** ** Dependency structure of a task list *)

(** Some task of the list with identifier [x] lists [d] among its
    dependencies. *)
Definition dependsOn (tasks : list Task) (x d : string) : Prop :=
  ∃ t, t ∈ tasks ∧ id t = x ∧ d ∈ dependencies t.

(** Every dependency is the identifier of a task of the list. *)
Definition dep_closed (tasks : list Task) : Prop :=
  ∀ t d, t ∈ tasks → d ∈ dependencies t → d ∈ id <$> tasks.

(** No task depends, directly or through other tasks, on itself. *)
Definition acyclic (tasks : list Task) : Prop :=
  ∀ x, ¬ tc (dependsOn tasks) x x.

(** Task [t] sits in tier number [n]. *)
Definition inTier (tiers : list (list Task)) (n : nat) (t : Task) : Prop :=
  ∃ tier, tiers !! n = Some tier ∧ t ∈ tier.

(** A sufficient, checkable condition for the three properties above:
    identifiers are distinct and every task comes after its
    dependencies. *)
Fixpoint orderedAfter (seen : list string) (tasks : list Task) : bool :=
  match tasks with
  | [] => true
  | t :: tasks =>
      bool_decide (id t ∉ seen)
      && forallb (λ d, bool_decide (d ∈ seen)) (dependencies t)
      && orderedAfter (seen ++ [id t]) tasks
  end.

(** The diamond again, dependencies first. *)
Definition diamondOrdered : list Task :=
  [ sampleTask "T1" []; sampleTask "T2" ["T1"]; sampleTask "T3" ["T1"];
    sampleTask "T4" ["T2"; "T3"] ].

(** [getTier] read without its memo table: the tier of [i] computed by
    plain recursion over the dependencies, to depth [fuel]. *)
Fixpoint tierDirect (taskMap : gmap string Task) (fuel : nat) (i : string)
  : option jsnum :=
  match fuel with
  | 0 => None
  | S fuel =>
      match taskMap !! i with
      | None => Some (Num 0)
      | Some task =>
          if bool_decide (dependencies task = [])
          then Some (Num 0)
          else
            vs ← mapM (tierDirect taskMap fuel)
                      (filter (λ d, is_Some (taskMap !! d))
                              (dependencies task));
            Some (js_succ (Math_max vs))
      end
  end.

(** The tier of identifier [i] in the task list is the natural number
    [n]. *)
Definition tierIs (tasks : list Task) (i : string) (n : nat) : Prop :=
  ∃ fuel, tierDirect (mkTaskMap tasks) fuel i = Some (Num n).

(** [buildIndexMap] on one flat list, counting from [idx]. *)
Definition indexFrom (acc : gmap string nat * nat) (tasks : list Task)
  : gmap string nat * nat :=
  foldl (λ '(m, idx) task, (<[id task := idx]> m, S idx)) acc tasks.

(** The memo table only holds tiers that the direct recursion finds. *)
Definition memo_ok (taskMap : gmap string Task) (tierOf : gmap string jsnum)
  : Prop :=
  ∀ k w, tierOf !! k = Some w → ∃ n, tierDirect taskMap n k = Some w.

(** Every key of [m] is a key of [m']. *)
Definition grows (m m' : gmap string jsnum) : Prop :=
  ∀ k, is_Some (m !! k) → is_Some (m' !! k).

(** Sample payloads and clients. *)
Definition dataFor (taskId : string) : EventData :=
  mkData [] None taskId "summary" "boom" "info" "hello" 2 None "" "".

Definition snapshotOf (tasks : list Task) (st : option string) : EventData :=
  mkData tasks st "" "" "" "" "" 0 None "" "".

(** A client whose page has just called [resetForAction actionId]. *)
Definition clientShowing (actionId : string) : Client :=
  mkClient (resetForAction actionId initialStore) 0 [].

(** ** Streams of events *)

(** One event arriving on the stream: the time it is handled, its name
    and its parsed body ([None] when the body is not valid JSON). *)
Record Arrival := mkArrival {
  a_now : string;
  a_event : string;
  a_parsed : option EventData;
}.

(** The handler run on a sequence of events, in order. *)
Definition onEvents (actionId : string) (events : list (string * string * EventData))
    (c : Client) : Client :=
  foldl (λ c '(now, event, data), onEvent actionId now event data c) c events.

(** The events of a stream going through the listeners of
    [createSSEConnection] to the handler, in order. *)
Definition sseDeliverAll (actionId : string) (arrivals : list Arrival)
    (c : Client) : Client :=
  foldl (λ c a, sseDeliver (onEvent actionId (a_now a)) (a_event a)
                           (a_parsed a) c)
        c arrivals.

(** The case labels of the handler's switch. *)
Definition handledEvents : list string :=
  [ "snapshot"; "task.started"; "task.completed"; "task.failed";
    "log.append"; "action.completed"; "action.failed"; "action.started";
    "action.retrying"; "task.recovered"; "code.started"; "code.completed";
    "code.failed"; "code.log" ].

(** The hook: its client state and whether its event source is open
    ([eventSourceRef.current] is set and not closed). *)
Record Hook := mkHook {
  h_client : Client;
  h_open : bool;
}.

(** The error callback passed to [createSSEConnection]: count the error
    and close the source at the third one in a row. *)
Definition onError (h : Hook) : Hook :=
  let n := S (errorCount (h_client h)) in
  mkHook (mkClient (store (h_client h)) n (invalidated (h_client h)))
         (if bool_decide (3 ≤ n) then false else h_open h).

(** What the event source reports: an error or an event. *)
Inductive SourceSignal :=
  | SourceError
  | SourceEvent (a : Arrival).

(** A closed source reports nothing any more. *)
Definition hookStep (actionId : string) (h : Hook) (s : SourceSignal) : Hook :=
  if h_open h then
    match s with
    | SourceError => onError h
    | SourceEvent a =>
        mkHook (sseDeliver (onEvent actionId (a_now a)) (a_event a)
                           (a_parsed a) (h_client h))
               (h_open h)
    end
  else h.

Definition hookRun (actionId : string) (h : Hook) (signals : list SourceSignal)
  : Hook :=
  foldl (hookStep actionId) h signals.

(** ** The workspace header ([workspace/workspace-header]) *)

Record Action := mkAction {
  act_id : string;
  act_title : string;
  act_root_prompt : string;
  act_status : string;         (* "draft" | "running" | "completed" | "failed" *)
  act_tasks : list Task;
  act_retry_count : Z;
}.

(** [sseStatus || action.status] *)
Definition headerStatus (st : ActionStore) (action : Action) : string :=
  match actionStatus st with
  | Some s => str_or s (act_status action)
  | None => act_status action
  end.

(** [action.tasks.some((t) => t.status === "pending")] *)
Definition hasPendingTasks (action : Action) : bool :=
  existsb (λ t, String.eqb (status t) "pending") (act_tasks action).

Definition headerIsRunning (st : ActionStore) (action : Action) : bool :=
  String.eqb (headerStatus st action) "running".

(** [isRunning && recoveryAttempt !== null]: the "Recovering" badge. *)
Definition headerIsRecovering (st : ActionStore) (action : Action) : bool :=
  headerIsRunning st action
  && match recoveryAttempt st with Some _ => true | None => false end.

(** The Run button's [disabled]:
    [runAction.isPending || isRunning || !hasPendingTasks]. *)
Definition runDisabled (isPending : bool) (st : ActionStore) (action : Action)
  : bool :=
  isPending || headerIsRunning st action || negb (hasPendingTasks action).

(** ** More of the task card ([workspace/task-card.tsx]) *)

(** [outputSummary && status === "completed"] *)
Definition cardHasOutput (task : Task) (st : ActionStore) : bool :=
  js_truthy (cardOutputSummary task st)
  && match cardStatus task st with
     | JStr s => String.eqb s "completed"
     | _ => false
     end.

(** The Edit button's [disabled]: [status === "running"]. *)
Definition editDisabled (task : Task) (st : ActionStore) : bool :=
  match cardStatus task st with
  | JStr s => String.eqb s "running"
  | _ => false
  end.

(** [allTasks.filter((t) => task.dependencies.includes(t.id))]: the tasks
    shown as dependency chips. *)
Definition depTasks (task : Task) (allTasks : list Task) : list Task :=
  filter (λ t, id t ∈ dependencies task) allTasks.

(** ** The logs drawer ([TaskLogsDrawer]) *)

(** A persisted log entry ([LogEntry]); its structured payload is not
    read by the drawer and is left out. *)
Record LogEntry := mkLogEntry {
  le_id : string;
  le_task_id : string;
  le_level : string;
  le_message : string;
  le_timestamp : string;
}.

(** [allLogs]: the persisted logs ([persistedLogs || []], reduced to
    level, message and timestamp), then the realtime logs of the task
    ([realtimeLogs || []]) whose message is not among the persisted
    ones. *)
Definition allLogs (persistedLogs : option (list LogEntry))
    (realtimeLogs : option (list LogLine)) : list LogLine :=
  let realtime := default [] realtimeLogs in
  let persisted :=
    (λ l, mkLog (le_level l) (le_message l) (le_timestamp l))
      <$> default [] persistedLogs in
  let filtered :=
    filter (λ rl, ¬ Exists (λ pl, message pl = message rl) persisted)
           realtime in
  persisted ++ filtered.

(** The drawer of a task reads the task's realtime logs from the store. *)
Definition drawerLogs (persistedLogs : option (list LogEntry))
    (st : ActionStore) (taskId : string) : list LogLine :=
  allLogs persistedLogs (taskLogs st !! taskId).

(** ** Selections ([ToolSelector], [TaskCardEditor]) *)

(** [toggle] of the tool selector: the selection with [i] removed when it
    is selected and appended when it is not. *)
Definition toggle (selected : list string) (i : string) : list string :=
  if bool_decide (i ∈ selected)
  then filter (λ s, s ≠ i) selected
  else selected ++ [i].

Definition WSL2_UNAVAILABLE : list string := ["win32com"].

(** A tool's checkbox changes: [!unavailable && toggle(tool.id)]; the
    new selection handed to [onChange], the old one when nothing is
    called. *)
Definition toolCheckboxChange (selected : list string) (toolId : string)
  : list string :=
  if bool_decide (toolId ∈ WSL2_UNAVAILABLE) then selected
  else toggle selected toolId.

(** [allTasks.filter((t) => t.id !== task.id)]: the tasks offered as
    dependencies in the editor. *)
Definition availableDeps (task : Task) (allTasks : list Task) : list Task :=
  filter (λ t, id t ≠ id task) allTasks.

(** The log lines a sequence of events carries for one task: those of its
    [log.append] and [code.log] events, stamped with the time each was
    handled. *)
Definition logLinesFor (taskId : string)
    (events : list (string * string * EventData)) : list LogLine :=
  omap (λ '(now, event, data),
          if (String.eqb event "log.append" || String.eqb event "code.log")
             && String.eqb (d_task_id data) taskId
          then Some (mkLog (d_level data) (d_message data) now)
          else None)
       events.

(** ** Text helpers

    A JavaScript string is read as the list of its UTF-16 code units;
    the type [ascii] holds the code units below 256, which is the range
    modelled here. *)

Definition code (c : Ascii.ascii) : N := Ascii.N_of_ascii c.

(** [a-z] *)
Definition isLowerAZ (c : Ascii.ascii) : bool :=
  ((97 <=? code c) && (code c <=? 122))%N.

(** [0-9] *)
Definition isDigit09 (c : Ascii.ascii) : bool :=
  ((48 <=? code c) && (code c <=? 57))%N.

(** White space as [\s] and [trim] see it, below 256: tab, line feed,
    vertical tab, form feed, carriage return, space, no-break space. *)
Definition isSpace (c : Ascii.ascii) : bool :=
  (((9 <=? code c) && (code c <=? 13)) || (code c =? 32) || (code c =? 160))%N.

(** [toLowerCase] on one code unit below 256: A-Z and the accented
    capitals U+00C0-U+00DE (but not the multiplication sign U+00D7) move
    up by 32. *)
Definition toLowerUnit (c : Ascii.ascii) : Ascii.ascii :=
  if (((65 <=? code c) && (code c <=? 90))
      || ((192 <=? code c) && (code c <=? 222) && negb (code c =? 215)))%N
  then Ascii.ascii_of_N (code c + 32)
  else c.

Fixpoint dropSpace (l : list Ascii.ascii) : list Ascii.ascii :=
  match l with
  | c :: l' => if isSpace c then dropSpace l' else l
  | [] => []
  end.

(** [String.prototype.trim] *)
Definition trimUnits (l : list Ascii.ascii) : list Ascii.ascii :=
  reverse (dropSpace (reverse (dropSpace l))).

Definition trim (s : string) : string :=
  String.string_of_list_ascii (trimUnits (String.list_ascii_of_string s)).

(** ** [slugify] ([agents/agent-builder-form.tsx]) *)

(** [.replace(/\s+/g, "_")]: every maximal run of white space becomes one
    underscore; [inRun] tells that the previous unit was white space. *)
Fixpoint collapseSpace (inRun : bool) (l : list Ascii.ascii) : list Ascii.ascii :=
  match l with
  | [] => []
  | c :: l' =>
      if isSpace c
      then (if inRun then collapseSpace true l'
            else "_"%char :: collapseSpace true l')
      else c :: collapseSpace false l'
  end.

(** [.replace(/^([^a-z])/, "a$1")] *)
Definition prefixLetter (l : list Ascii.ascii) : list Ascii.ascii :=
  match l with
  | [] => []
  | c :: _ => if isLowerAZ c then l else "a"%char :: l
  end.

Definition slugifyUnits (l : list Ascii.ascii) : list Ascii.ascii :=
  take 60
    (prefixLetter
       (collapseSpace false
          (filter (λ c, isLowerAZ c || isDigit09 c || isSpace c
                        || Ascii.eqb c "_"%char)
                  (trimUnits (toLowerUnit <$> l))))).

Definition slugify (name : string) : string :=
  String.string_of_list_ascii (slugifyUnits (String.list_ascii_of_string name)).

(** A unit of an agent type: [a-z], [0-9] or underscore. *)
Definition isSlugUnit (c : Ascii.ascii) : bool :=
  isLowerAZ c || isDigit09 c || Ascii.eqb c "_"%char.

(** The name field of the agent form: [handleNameChange]. *)
Record AgentNameState := mkAgentName {
  an_name : string;
  an_agentType : string;
  an_agentTypeManual : bool;
}.

Definition handleNameChange (val : string) (st : AgentNameState)
  : AgentNameState :=
  mkAgentName val
    (if an_agentTypeManual st then an_agentType st else slugify val)
    (an_agentTypeManual st).

(** ** Grouping by a key ([ToolSelector], the model selectors)

    One round of the loop, [if (!groups[k]) groups[k] = [];
    groups[k].push(x)], on the object [groups]: an own list is extended;
    [undefined] makes a new list; a member inherited from
    [Object.prototype] is truthy, so no list is made, and has no [push],
    so the call throws a [TypeError]: [None]. *)
Definition groupPush {A} (key : A → string)
    (groups : gmap string (list A)) (x : A) : option (gmap string (list A)) :=
  match getProp groups (key x) with
  | Own g => Some (<[key x := g ++ [x]]> groups)
  | Undefined => Some (<[key x := [x]]> groups)
  | Inherited => None
  end.

(** The loop [for (const x of xs) ...] from the empty object; the
    component is rendered from [Object.entries] of the result, which
    lists each own key once. *)
Definition groupAll {A} (key : A → string) (xs : list A)
  : option (gmap string (list A)) :=
  foldl (λ acc x, acc ≫= λ groups, groupPush key groups x) (Some ∅) xs.

Record ToolCatalogEntry := mkTool {
  tool_id : string;
  tool_name : string;
  tool_category : string;
  tool_description : string;
  tool_import_snippet : string;
  tool_usage_snippet : string;
  tool_pip_package : option string;
}.

Definition byCategory (tools : list ToolCatalogEntry)
  : option (gmap string (list ToolCatalogEntry)) :=
  groupAll tool_category tools.

Record ModelInfo := mkModel {
  model_name : string;
  model_display_name : string;
  model_provider : string;
}.

Definition modelsByProvider (models : list ModelInfo)
  : option (gmap string (list ModelInfo)) :=
  groupAll model_provider models.

(** ** The add-task dialog ([AddTaskDialog.handleSubmit]) *)

Record AddTaskState := mkAddTask {
  ad_open : bool;
  ad_prompt : string;
  ad_selectedDeps : list string;
}.

(** The body handed to [createTask.mutateAsync]. *)
Record CreateTaskRequest := mkCreateTask {
  ct_actionId : string;
  ct_prompt : string;
  ct_dependencies : list string;
}.

(** [handleSubmit]: nothing happens on a blank prompt; otherwise the
    request is sent and, if it succeeds ([ok]), the dialog closes and
    clears; a failed request throws before the state is touched. *)
Definition handleSubmit (actionId : string) (ok : bool) (st : AddTaskState)
  : option CreateTaskRequest * AddTaskState :=
  if truthy (trim (ad_prompt st)) then
    (Some (mkCreateTask actionId (trim (ad_prompt st)) (ad_selectedDeps st)),
     if ok then mkAddTask false "" [] else st)
  else (None, st).

(** The shape of an agent type: units [a-z], [0-9], underscore; at most
    60 of them; the first one, if any, a letter. *)
Definition slugShaped (r : list Ascii.ascii) : Prop :=
  Forall (λ c, isSlugUnit c = true) r
  ∧ length r ≤ 60
  ∧ ∀ c, head r = Some c → isLowerAZ c = true.

(** * Properties *)

(** ** The store *)

Section store_facts.
Implicit Types (st : ActionStore) (taskId field : string).

Lemma overlayField_setTaskOverride_new taskId field v override st :
  override !! field = Some v →
  overlayField (setTaskOverride taskId override st) taskId field = Some v.
Proof.
  intros Hov. unfold overlayField, setTaskOverride; cbn.
  rewrite lookup_insert_eq; cbn.
  by rewrite (lookup_union_Some_l _ _ _ _ Hov).
Qed.

Lemma overlayField_setTaskOverride_old taskId field override st :
  override !! field = None →
  overlayField (setTaskOverride taskId override st) taskId field
  = overlayField st taskId field.
Proof.
  intros Hov. unfold overlayField, setTaskOverride; cbn.
  rewrite lookup_insert_eq; cbn.
  rewrite lookup_union_r by done.
  destruct (taskOverrides st !! taskId); done.
Qed.

Lemma taskOverrides_setTaskOverride_ne taskId other override st :
  taskId ≠ other →
  taskOverrides (setTaskOverride taskId override st) !! other
  = taskOverrides st !! other.
Proof. intros. unfold setTaskOverride; cbn. by rewrite lookup_insert_ne. Qed.
End store_facts.

(** Reading a property. *)
Lemma getProp_own {V} (obj : gmap string V) key v :
  obj !! key = Some v → getProp obj key = Own v.
Proof. intros H. unfold getProp. by rewrite H. Qed.

Lemma getProp_inherited {V} (obj : gmap string V) key :
  readsInherited obj key → getProp obj key = Inherited.
Proof.
  intros [H Hk]. unfold getProp. rewrite H. by rewrite bool_decide_eq_true_2.
Qed.

Lemma getProp_undefined {V} (obj : gmap string V) key :
  obj !! key = None → key ∉ objectPrototypeKeys → getProp obj key = Undefined.
Proof.
  intros H Hk. unfold getProp. rewrite H. by rewrite bool_decide_eq_false_2.
Qed.

Lemma getProp_cases {V} (obj : gmap string V) key :
  (∃ v, obj !! key = Some v ∧ getProp obj key = Own v)
  ∨ (obj !! key = None ∧ key ∉ objectPrototypeKeys
     ∧ getProp obj key = Undefined)
  ∨ (readsInherited obj key ∧ getProp obj key = Inherited).
Proof.
  destruct (obj !! key) as [v|] eqn:H.
  - left. exists v. split; [done|]. by apply getProp_own.
  - destruct (decide (key ∈ objectPrototypeKeys)) as [Hk|Hk].
    + right; right. split; [done|]. by apply getProp_inherited.
    + right; left. split_and!; [done..|]. by apply getProp_undefined.
Qed.

Lemma readsInherited_insert_ne {V} (obj : gmap string V) k v key :
  k ≠ key → readsInherited (<[k := v]> obj) key ↔ readsInherited obj key.
Proof. intros. unfold readsInherited. by rewrite lookup_insert_ne. Qed.

Lemma not_readsInherited_insert {V} (obj : gmap string V) k v :
  ¬ readsInherited (<[k := v]> obj) k.
Proof. intros [H _]. by rewrite lookup_insert_eq in H. Qed.

(** [appendTaskLog] when the read finds no inherited member. *)
Lemma appendTaskLog_Some now taskId lvl msg st :
  ¬ readsInherited (taskLogs st) taskId →
  appendTaskLog now taskId lvl msg st
  = Some (mkStore (currentActionId st) (taskOverrides st) (actionStatus st)
            (recoveryAttempt st)
            (<[taskId := default [] (taskLogs st !! taskId)
                           ++ [mkLog lvl msg now]]> (taskLogs st))
            (codeExecutions st)).
Proof.
  intros Hk. unfold appendTaskLog.
  destruct (getProp_cases (taskLogs st) taskId)
    as [(v & Hv & ->)|[(Hv & _ & ->)|[? _]]]; [| |done]; by rewrite Hv.
Qed.

(** [appendTaskLog] when the read finds an inherited member. *)
Lemma appendTaskLog_None now taskId lvl msg st :
  readsInherited (taskLogs st) taskId →
  appendTaskLog now taskId lvl msg st = None.
Proof. intros Hk. unfold appendTaskLog. by rewrite getProp_inherited. Qed.




(** ** The dependency selector *)

Lemma toggleDep_present prev taskId :
  taskId ∈ prev → toggleDep prev taskId = filter (λ i, i ≠ taskId) prev.
Proof. intros. unfold toggleDep. by rewrite bool_decide_eq_true_2. Qed.

Lemma toggleDep_absent prev taskId :
  taskId ∉ prev → toggleDep prev taskId = prev ++ [taskId].
Proof. intros. unfold toggleDep. by rewrite bool_decide_eq_false_2. Qed.

Lemma toggleDep_elem prev taskId x :
  x ∈ toggleDep prev taskId ↔
  (x = taskId ∧ taskId ∉ prev) ∨ (x ≠ taskId ∧ x ∈ prev).
Proof.
  destruct (decide (taskId ∈ prev)) as [Hin|Hnin].
  - rewrite toggleDep_present by done. rewrite list_elem_of_filter.
    destruct (decide (x = taskId)); intuition congruence.
  - rewrite toggleDep_absent by done. rewrite elem_of_app, list_elem_of_singleton.
    destruct (decide (x = taskId)); intuition congruence.
Qed.

(** C9. [toggleDep] removes the identifier when it is selected and
    appends it when it is not; its membership is negated, every other
    identifier's membership is kept, and toggling twice gives back the
    original membership. *)
Theorem toggleDep_toggles prev taskId :
  (taskId ∈ prev → toggleDep prev taskId = filter (λ i, i ≠ taskId) prev)
  ∧ (taskId ∉ prev → toggleDep prev taskId = prev ++ [taskId])
  ∧ (taskId ∈ toggleDep prev taskId ↔ taskId ∉ prev)
  ∧ (∀ x, x ≠ taskId → (x ∈ toggleDep prev taskId ↔ x ∈ prev))
  ∧ (∀ x, x ∈ toggleDep (toggleDep prev taskId) taskId ↔ x ∈ prev).
Proof.
  split_and!.
  - apply toggleDep_present.
  - apply toggleDep_absent.
  - rewrite toggleDep_elem. intuition congruence.
  - intros x Hx. rewrite toggleDep_elem. intuition congruence.
  - intros x. rewrite !toggleDep_elem.
    destruct (decide (x = taskId)), (decide (taskId ∈ prev));
      intuition congruence.
Qed.

(** ** The event handler *)

Lemma otherAction_true currentId actionId :
  currentId ≠ "" → currentId ≠ actionId → otherAction currentId actionId = true.
Proof.
  intros H1 H2. unfold otherAction, truthy.
  apply String.eqb_neq in H1, H2. by rewrite H1, H2.
Qed.

Lemma otherAction_false currentId actionId :
  currentId = "" ∨ currentId = actionId → otherAction currentId actionId = false.
Proof.
  unfold otherAction, truthy. intros [->| ->]; [done|].
  rewrite String.eqb_refl. apply andb_false_r.
Qed.

(** C10. While the store shows an action (non-empty [currentActionId])
    other than the one the subscription was opened for, the handler
    changes nothing: the store, and with it every overlay, is left as it
    was, whatever the event and its payload. *)
Theorem onEvent_other_action actionId now event data c :
  currentActionId (store c) ≠ "" →
  currentActionId (store c) ≠ actionId →
  onEvent actionId now event data c = c
  ∧ store (onEvent actionId now event data c) = store c.
Proof.
  intros H1 H2. unfold onEvent. by rewrite otherAction_true.
Qed.

Lemma onEvent_other_action_witness :
  onEvent "a2" "now" "task.started" (dataFor "t1") (clientShowing "a1")
    = clientShowing "a1"
  ∧ store (onEvent "a2" "now" "task.started" (dataFor "t1") (clientShowing "a1"))
    = store (clientShowing "a1").
Proof. apply onEvent_other_action; cbn; done. Defined.

Section handler_cases.
Context (actionId now : string) (data : EventData) (c : Client).
Hypothesis Hshown :
  currentActionId (store c) = "" ∨ currentActionId (store c) = actionId.

(** The client once the handler is past its first check. *)
Let c0 := mkClient (store c) 0 (invalidated c).

Lemma onEvent_snapshot :
  onEvent actionId now "snapshot" data c =
    let c1 := foldl (λ c t, withStore (setTaskOverride (id t)
                                         (snapshotOverride t)) c)
                    c0 (d_tasks data) in
    match d_status data with
    | Some s => if truthy s then withStore (setActionStatus s) c1 else c1
    | None => c1
    end.
Proof. unfold onEvent. by rewrite otherAction_false. Qed.

Lemma onEvent_task_started :
  onEvent actionId now "task.started" data c =
    withStore (setTaskOverride (d_task_id data)
                 {[ "status" := JStr "running" ]}) c0.
Proof. unfold onEvent. by rewrite otherAction_false. Qed.

Lemma onEvent_task_completed :
  onEvent actionId now "task.completed" data c =
    invalidateQueries ["action"; actionId]
      (withStore (setTaskOverride (d_task_id data)
                    {[ "status" := JStr "completed";
                       "output_summary" := JStr (d_output_summary data) ]})
                 c0).
Proof. unfold onEvent. by rewrite otherAction_false. Qed.

Lemma onEvent_task_failed :
  onEvent actionId now "task.failed" data c =
    withStore (setTaskOverride (d_task_id data)
                 {[ "status" := JStr "failed";
                    "output_summary" := JStr (d_error data) ]}) c0.
Proof. unfold onEvent. by rewrite otherAction_false. Qed.
End handler_cases.

(** The handler has no case for [task.retrying]. *)
Lemma onEvent_task_retrying actionId now data c :
  store (onEvent actionId now "task.retrying" data c) = store c
  ∧ invalidated (onEvent actionId now "task.retrying" data c) = invalidated c.
Proof.
  unfold onEvent. destruct (otherAction _ _); done.
Qed.

(** C2. A [task.retrying] event that reaches the handler leaves the store
    exactly as it was: no field records the attempt, and two such events
    with different payloads (attempt numbers included) give the same
    store. *)
Theorem task_retrying_not_recorded actionId now data data' c :
  store (onEvent actionId now "task.retrying" data c) = store c
  ∧ store (onEvent actionId now "task.retrying" data' c)
    = store (onEvent actionId now "task.retrying" data c).
Proof. by rewrite !(proj1 (onEvent_task_retrying _ _ _ _)). Qed.

(** C3, as the handler has it.  While the store shows no action or the
    action of the subscription, [task.started] sets the task's overlay
    status to "running", [task.completed] sets it to "completed" with the
    event's output summary, and [task.failed] sets it to "failed" with the
    event's error as output summary, which the task's card then shows in
    its error box when the error is not empty. *)
Theorem task_events_set_overlay actionId now data c :
  currentActionId (store c) = "" ∨ currentActionId (store c) = actionId →
  let taskId := d_task_id data in
  overlayField (store (onEvent actionId now "task.started" data c))
               taskId "status" = Some (JStr "running")
  ∧ (let st := store (onEvent actionId now "task.completed" data c) in
     overlayField st taskId "status" = Some (JStr "completed")
     ∧ overlayField st taskId "output_summary"
       = Some (JStr (d_output_summary data)))
  ∧ (let st := store (onEvent actionId now "task.failed" data c) in
     overlayField st taskId "status" = Some (JStr "failed")
     ∧ overlayField st taskId "output_summary" = Some (JStr (d_error data))
     ∧ ∀ task, id task = taskId → d_error data ≠ "" →
         cardErrorOutput task st = Some (JStr (d_error data))).
Proof.
  intros Hshown. cbn zeta.
  rewrite onEvent_task_started, onEvent_task_completed, onEvent_task_failed
    by done.
  cbn [store withStore invalidateQueries].
  split_and!; try by apply overlayField_setTaskOverride_new.
  intros task Hid Herr. unfold cardErrorOutput, cardStatus, cardOutputSummary.
  rewrite Hid.
  rewrite (overlayField_setTaskOverride_new _ "status" (JStr "failed")) by done.
  rewrite (overlayField_setTaskOverride_new _ "output_summary"
             (JStr (d_error data))) by done.
  cbn. unfold truthy. apply String.eqb_neq in Herr. by rewrite Herr.
Qed.

Lemma task_events_set_overlay_witness :
  overlayField (store (onEvent "a1" "now" "task.failed" (dataFor "t1")
                         (clientShowing "a1")))
               "t1" "output_summary" = Some (JStr "boom").
Proof.
  apply (task_events_set_overlay "a1" "now" (dataFor "t1") (clientShowing "a1")).
  right. reflexivity.
Defined.

(** C3 as stated fails: an event delivered on the subscription of action
    "a2" while the store shows action "a1" is dropped, so the task's
    overlay does not get the status "running". *)
Lemma task_started_dropped_for_other_action :
  overlayField (store (onEvent "a2" "now" "task.started" (dataFor "t1")
                         (clientShowing "a1")))
               "t1" "status" ≠ Some (JStr "running").
Proof. vm_compute. discriminate. Qed.

(** The snapshot loop only touches the overlay map. *)
Lemma snapshot_loop_store tasks c :
  let c' := foldl (λ c t, withStore (setTaskOverride (id t)
                                       (snapshotOverride t)) c) c tasks in
  store c' = foldl (λ st t, setTaskOverride (id t) (snapshotOverride t) st)
                   (store c) tasks
  ∧ errorCount c' = errorCount c ∧ invalidated c' = invalidated c.
Proof.
  revert c. induction tasks as [|t tasks IH]; intros c; [done|].
  cbn [foldl]. destruct (IH (withStore (setTaskOverride (id t)
                                          (snapshotOverride t)) c))
    as (-> & -> & ->). done.
Qed.

Section snapshot_loop.
Let loop (tasks : list Task) (st : ActionStore) : ActionStore :=
  foldl (λ st t, setTaskOverride (id t) (snapshotOverride t) st) st tasks.

Lemma snapshot_loop_frame tasks st :
  actionStatus (loop tasks st) = actionStatus st
  ∧ currentActionId (loop tasks st) = currentActionId st
  ∧ recoveryAttempt (loop tasks st) = recoveryAttempt st
  ∧ taskLogs (loop tasks st) = taskLogs st
  ∧ codeExecutions (loop tasks st) = codeExecutions st.
Proof.
  revert st. induction tasks as [|t tasks IH]; intros st; [done|].
  change (loop (t :: tasks) st)
    with (loop tasks (setTaskOverride (id t) (snapshotOverride t) st)).
  by destruct (IH (setTaskOverride (id t) (snapshotOverride t) st))
    as (-> & -> & -> & -> & ->).
Qed.

Lemma snapshot_loop_other tasks st k :
  k ∉ id <$> tasks →
  taskOverrides (loop tasks st) !! k = taskOverrides st !! k.
Proof.
  revert st. induction tasks as [|t tasks IH]; intros st Hk; [done|].
  rewrite fmap_cons, not_elem_of_cons in Hk. destruct Hk as [Hne Hk].
  change (loop (t :: tasks) st)
    with (loop tasks (setTaskOverride (id t) (snapshotOverride t) st)).
  rewrite IH by done. by apply taskOverrides_setTaskOverride_ne.
Qed.

Lemma snapshot_loop_task tasks st t :
  NoDup (id <$> tasks) → t ∈ tasks →
  overlayField (loop tasks st) (id t) "status" = Some (JStr (status t))
  ∧ overlayField (loop tasks st) (id t) "output_summary"
    = Some (js_of_nullable (output_summary t)).
Proof.
  revert st. induction tasks as [|t0 tasks IH]; intros st Hnd Hin.
  { by apply elem_of_nil in Hin. }
  rewrite fmap_cons, NoDup_cons in Hnd. destruct Hnd as [Hfresh Hnd].
  change (loop (t0 :: tasks) st)
    with (loop tasks (setTaskOverride (id t0) (snapshotOverride t0) st)).
  apply elem_of_cons in Hin as [->|Hin]; [|by apply IH].
  unfold overlayField. rewrite snapshot_loop_other by done.
  split; by apply overlayField_setTaskOverride_new.
Qed.
End snapshot_loop.

(** C4, as the handler has it.  While the store shows no action or the
    action of the subscription, a snapshot whose tasks have distinct
    identifiers leaves, for each of its tasks, that task's status and
    output summary in the overlay; a non-empty payload status becomes the
    action status (an absent one leaves it alone); the overlay entries of
    tasks that are not in the payload are not modified. *)
Theorem snapshot_sets_overlay actionId now data c :
  currentActionId (store c) = "" ∨ currentActionId (store c) = actionId →
  NoDup (id <$> d_tasks data) →
  let st := store (onEvent actionId now "snapshot" data c) in
  (∀ t, t ∈ d_tasks data →
     overlayField st (id t) "status" = Some (JStr (status t))
     ∧ overlayField st (id t) "output_summary"
       = Some (js_of_nullable (output_summary t)))
  ∧ (∀ s, d_status data = Some s → s ≠ "" → actionStatus st = Some s)
  ∧ (d_status data = None → actionStatus st = actionStatus (store c))
  ∧ (∀ k, k ∉ id <$> d_tasks data →
       taskOverrides st !! k = taskOverrides (store c) !! k).
Proof.
  intros Hshown Hnd. cbn zeta. rewrite onEvent_snapshot by done. cbn zeta.
  set (c0 := mkClient (store c) 0 (invalidated c)).
  destruct (snapshot_loop_store (d_tasks data) c0) as (Hst & _ & _).
  cbn zeta in Hst. change (store c0) with (store c) in Hst.
  destruct (snapshot_loop_frame (d_tasks data) (store c)) as (Hact & _).
  assert (Hfields : ∀ (c1 : Client) s,
    overlayField (store (withStore (setActionStatus s) c1))
    = overlayField (store c1)) by done.
  split_and!.
  - intros t Hin.
    destruct (snapshot_loop_task (d_tasks data) (store c) t Hnd Hin)
      as [H1 H2].
    destruct (d_status data) as [s|]; [destruct (truthy s)|];
      rewrite ?Hfields, Hst; done.
  - intros s -> Hs. unfold truthy. apply String.eqb_neq in Hs.
    by rewrite Hs.
  - intros ->. by rewrite Hst.
  - intros k Hk.
    pose proof (snapshot_loop_other (d_tasks data) (store c) k Hk) as Hk'.
    destruct (d_status data) as [s|]; [destruct (truthy s)|];
      cbn [withStore store setActionStatus taskOverrides]; rewrite Hst; done.
Qed.

Lemma snapshot_sets_overlay_witness :
  let st := store (onEvent "a1" "now" "snapshot"
                     (snapshotOf diamond (Some "running"))
                     (clientShowing "a1")) in
  (∀ t, t ∈ diamond →
     overlayField st (id t) "status" = Some (JStr (status t))
     ∧ overlayField st (id t) "output_summary"
       = Some (js_of_nullable (output_summary t)))
  ∧ (∀ s, Some "running" = Some s → s ≠ "" → actionStatus st = Some s)
  ∧ (Some "running" = None →
       actionStatus st = actionStatus (store (clientShowing "a1")))
  ∧ (∀ k, k ∉ id <$> diamond →
       taskOverrides st !! k = taskOverrides (store (clientShowing "a1")) !! k).
Proof.
  apply (snapshot_sets_overlay "a1" "now" (snapshotOf diamond (Some "running"))
           (clientShowing "a1")).
  - right. reflexivity.
  - cbn. repeat constructor; set_solver.
Defined.

(** C4 as stated fails: a snapshot delivered on the subscription of
    action "a2" while the store shows action "a1" is dropped; the
    overlay does not get the status of its task and the action status is
    not set. *)
Lemma snapshot_dropped_for_other_action :
  let st := store (onEvent "a2" "now" "snapshot"
                     (snapshotOf [sampleTask "T1" []] (Some "running"))
                     (clientShowing "a1")) in
  overlayField st "T1" "status" ≠ Some (JStr "pending")
  ∧ actionStatus st ≠ Some "running".
Proof. vm_compute. split; discriminate. Qed.

(** ** The SSE client *)

Lemma sseDeliver_unregistered handler type parsed c :
  type ∉ eventTypes → sseDeliver handler type parsed c = c.
Proof.
  unfold sseDeliver. generalize eventTypes as registered.
  intros registered. revert c.
  induction registered as [|r registered IH]; intros c Hnot; [done|].
  apply not_elem_of_cons in Hnot as [Hne Hnot]. cbn [foldl].
  assert (String.eqb r type = false) as -> by (apply String.eqb_neq; congruence).
  by apply IH.
Qed.

Lemma sseDeliver_registered handler type data c :
  type ∈ eventTypes → sseDeliver handler type (Some data) c = handler type data c.
Proof.
  unfold eventTypes. intros Hin.
  repeat (apply elem_of_cons in Hin as [->|Hin]; [reflexivity|]).
  by apply elem_of_nil in Hin.
Qed.

(** C1. The client registers no listener for [action.retrying] or
    [task.recovered], two of the event kinds of the per-action stream:
    events of these kinds never reach the handler, although the handler
    has a case for each (recording the recovery attempt, and asking for a
    refetch); the ten other kinds are passed to the handler. *)
Theorem sse_listeners_miss_two_kinds :
  "action.retrying" ∈ specEventKinds ∧ "task.recovered" ∈ specEventKinds
  ∧ ("action.retrying" ∉ eventTypes) ∧ ("task.recovered" ∉ eventTypes)
  ∧ (∀ handler parsed c,
       sseDeliver handler "action.retrying" parsed c = c
       ∧ sseDeliver handler "task.recovered" parsed c = c)
  ∧ (let c := clientShowing "a1" in
     let data := dataFor "t1" in
     recoveryAttempt (store (onEvent "a1" "now" "action.retrying" data c))
       = Some 2%Z
     ∧ recoveryAttempt
         (store (sseDeliver (onEvent "a1" "now") "action.retrying"
                   (Some data) c)) = None
     ∧ invalidated (onEvent "a1" "now" "task.recovered" data c)
       = [["action"; "a1"]]
     ∧ invalidated (sseDeliver (onEvent "a1" "now") "task.recovered"
                      (Some data) c) = [])
  ∧ Forall (λ kind, kind = "action.retrying" ∨ kind = "task.recovered"
                    ∨ (∀ handler data c,
                         sseDeliver handler kind (Some data) c
                         = handler kind data c))
           specEventKinds.
Proof.
  assert (H1 : "action.retrying" ∉ eventTypes).
  { unfold eventTypes. rewrite !not_elem_of_cons. split_and!; try done.
    apply not_elem_of_nil. }
  assert (H2 : "task.recovered" ∉ eventTypes).
  { unfold eventTypes. rewrite !not_elem_of_cons. split_and!; try done.
    apply not_elem_of_nil. }
  split; [unfold specEventKinds; set_solver|].
  split; [unfold specEventKinds; set_solver|].
  split; [done|]. split; [done|].
  split; [intros handler parsed c; by rewrite !sseDeliver_unregistered|].
  split; [vm_compute; done|].
  unfold specEventKinds.
  repeat (apply Forall_cons; split;
          [first [ by left | by right; left
                 | right; right; intros; reflexivity ] |]).
  apply Forall_nil_2.
Qed.

(** ** The task map *)

Lemma mkTaskMap_snoc tasks t :
  mkTaskMap (tasks ++ [t]) = <[id t := t]> (mkTaskMap tasks).
Proof. unfold mkTaskMap. by rewrite foldl_snoc. Qed.

Lemma mkTaskMap_lookup_Some tasks i t :
  mkTaskMap tasks !! i = Some t → t ∈ tasks ∧ id t = i.
Proof.
  induction tasks as [|t0 tasks IH] using rev_ind; [done|].
  rewrite mkTaskMap_snoc, elem_of_app, list_elem_of_singleton.
  destruct (decide (id t0 = i)) as [<-|Hne].
  - rewrite lookup_insert_eq. intros [= <-]. auto.
  - rewrite lookup_insert_ne by done. intros H. apply IH in H. tauto.
Qed.

Lemma mkTaskMap_lookup_is_Some tasks i :
  i ∈ id <$> tasks → is_Some (mkTaskMap tasks !! i).
Proof.
  induction tasks as [|t0 tasks IH] using rev_ind.
  { intros H. by apply elem_of_nil in H. }
  rewrite mkTaskMap_snoc, fmap_app, elem_of_app. cbn.
  rewrite list_elem_of_singleton.
  destruct (decide (id t0 = i)) as [<-|Hne].
  - rewrite lookup_insert_eq. eauto.
  - rewrite lookup_insert_ne by done. intros [H|H]; [auto|congruence].
Qed.

Lemma mkTaskMap_lookup_NoDup tasks t :
  NoDup (id <$> tasks) → t ∈ tasks → mkTaskMap tasks !! id t = Some t.
Proof.
  induction tasks as [|t0 tasks IH] using rev_ind.
  { intros _ H. by apply elem_of_nil in H. }
  rewrite mkTaskMap_snoc, fmap_app, NoDup_app, elem_of_app. cbn.
  intros (Hnd & Hfresh & _) [Hin| ->%list_elem_of_singleton].
  - rewrite lookup_insert_ne; [by apply IH|].
    intros Heq. apply (Hfresh (id t)).
    + apply list_elem_of_fmap. eauto.
    + rewrite <- Heq. apply list_elem_of_singleton. done.
  - apply lookup_insert_eq.
Qed.

(** ** Arithmetic of tiers *)

Lemma Math_max_Num ns :
  ns ≠ [] → Math_max (Num <$> ns) = Num (max_list ns).
Proof.
  induction ns as [|a ns IH]; [done|]. intros _.
  destruct ns as [|b ns].
  - cbn. f_equal. lia.
  - change (Math_max (Num <$> a :: b :: ns))
      with (js_max (Num a) (Math_max (Num <$> b :: ns))).
    rewrite IH by done. done.
Qed.

(** ** The tier function without memo table *)

Section tierDirect.
Context (tm : gmap string Task).

Lemma tierDirect_mono n m i v :
  tierDirect tm n i = Some v → n ≤ m → tierDirect tm m i = Some v.
Proof.
  revert m i v. induction n as [|n IH]; intros m i v; [done|].
  intros Hn Hle. destruct m as [|m]; [lia|].
  cbn [tierDirect] in *. destruct (tm !! i) as [task|]; [|done].
  case_bool_decide; [done|].
  apply bind_Some in Hn as (vs & Hvs & Hv). apply bind_Some. exists vs.
  split; [|done]. apply mapM_Some in Hvs. apply mapM_Some.
  eapply Forall2_impl; [done|]. intros d w Hd. apply IH; [done|lia].
Qed.

Lemma tierDirect_fun n m i v w :
  tierDirect tm n i = Some v → tierDirect tm m i = Some w → v = w.
Proof.
  intros Hv Hw.
  apply (tierDirect_mono _ (n `max` m)) in Hv; [|lia].
  apply (tierDirect_mono _ (n `max` m)) in Hw; [|lia]. congruence.
Qed.


Lemma memo_ok_insert tierOf i v n :
  memo_ok tm tierOf → tierDirect tm n i = Some v → memo_ok tm (<[i := v]> tierOf).
Proof.
  intros Hok Hv k w. destruct (decide (i = k)) as [<-|Hne].
  - rewrite lookup_insert_eq. intros [= <-]. eauto.
  - rewrite lookup_insert_ne by done. apply Hok.
Qed.


Lemma grows_insert (m : gmap string jsnum) i v : grows m (<[i := v]> m).
Proof.
  intros k Hk. destruct (decide (i = k)) as [<-|Hne].
  - rewrite lookup_insert_eq. eauto.
  - by rewrite lookup_insert_ne.
Qed.

Lemma grows_trans m1 m2 m3 : grows m1 m2 → grows m2 m3 → grows m1 m3.
Proof. unfold grows. auto. Qed.

Lemma mapTiers_direct f g ds vs tierOf :
  (∀ d v m, d ∈ ds → g d = Some v → memo_ok tm m →
     ∃ m', f d m = Some (v, m') ∧ memo_ok tm m' ∧ grows m m') →
  mapM g ds = Some vs → memo_ok tm tierOf →
  ∃ tierOf', mapTiers f ds tierOf = Some (vs, tierOf')
             ∧ memo_ok tm tierOf' ∧ grows tierOf tierOf'.
Proof.
  intros Hf Hvs. apply mapM_Some in Hvs. revert tierOf Hf.
  induction Hvs as [|d v ds vs Hd _ IH]; intros tierOf Hf Hok.
  { exists tierOf. split_and!; [done|done|by intros ?]. }
  destruct (Hf d v tierOf) as (m1 & Hm1 & Hok1 & Hg1);
    [apply elem_of_cons; auto|done|done|].
  destruct (IH m1) as (m2 & Hm2 & Hok2 & Hg2); [|done|].
  { intros d' v' m Hin. apply Hf. apply elem_of_cons; auto. }
  exists m2. cbn [mapTiers]. rewrite Hm1, Hm2.
  split_and!; [done|done|by eapply grows_trans].
Qed.

Lemma getTier_direct n i v tierOf :
  tierDirect tm n i = Some v → memo_ok tm tierOf →
  ∃ tierOf', getTier tm n i tierOf = Some (v, tierOf')
             ∧ memo_ok tm tierOf' ∧ grows tierOf tierOf'
             ∧ tierOf' !! i = Some v.
Proof.
  revert i v tierOf. induction n as [|n IH]; intros i v tierOf; [done|].
  intros Hv Hok. cbn [getTier].
  destruct (tierOf !! i) as [w|] eqn:Hmemo.
  { destruct (Hok i w Hmemo) as [m Hw].
    assert (w = v) as -> by (by eapply tierDirect_fun).
    exists tierOf. split_and!; [done|done|by intros ?|done]. }
  pose proof Hv as Hv'. cbn [tierDirect] in Hv.
  destruct (tm !! i) as [task|] eqn:Htask.
  2:{ injection Hv as <-. exists (<[i := Num 0]> tierOf). split_and!.
      - done.
      - by eapply memo_ok_insert.
      - apply grows_insert.
      - apply lookup_insert_eq. }
  case_bool_decide as Hdeps.
  { injection Hv as <-. exists (<[i := Num 0]> tierOf). split_and!.
    - done.
    - by eapply memo_ok_insert.
    - apply grows_insert.
    - apply lookup_insert_eq. }
  apply bind_Some in Hv as (vs & Hvs & [= <-]).
  destruct (mapTiers_direct (getTier tm n) (tierDirect tm n)
              (filter (λ d, is_Some (tm !! d)) (dependencies task)) vs tierOf)
    as (m1 & Hm1 & Hok1 & Hg1); [|done|done|].
  { intros d w m _ Hd Hm. destruct (IH d w m Hd Hm) as (m' & ? & ? & ? & _).
    eauto. }
  rewrite Hm1. eexists. split_and!.
  - done.
  - by eapply memo_ok_insert.
  - eapply grows_trans; [done|apply grows_insert].
  - apply lookup_insert_eq.
Qed.

End tierDirect.

(** ** Well-foundedness of the dependency relation *)

Lemma dependsOn_tc_finite tasks x :
  pred_finite (tc (dependsOn tasks) x).
Proof.
  exists (mjoin (dependencies <$> tasks)). intros y Hxy.
  assert (Hlast : ∀ a b, dependsOn tasks a b →
                         b ∈ mjoin (dependencies <$> tasks)).
  { intros a b (t & Ht & _ & Hb). apply list_elem_of_join.
    exists (dependencies t). split; [done|]. apply list_elem_of_fmap. eauto. }
  induction Hxy; eauto.
Qed.

Lemma acyclic_sn tasks x : acyclic tasks → sn (dependsOn tasks) x.
Proof.
  intros Hacyc. apply tc_finite_sn; [exact Hacyc|apply dependsOn_tc_finite].
Qed.

Lemma filter_all {A} (P : A → Prop) `{!∀ x, Decision (P x)} (l : list A) :
  Forall P l → filter P l = l.
Proof.
  induction 1 as [|x l Hx _ IH]; [done|].
  rewrite filter_cons_True by done. by rewrite IH.
Qed.

(** ** Every task gets a tier *)

Section tiers_exist.
Context (tasks : list Task).
Hypothesis Hclosed : dep_closed tasks.
Hypothesis Hacyclic : acyclic tasks.
Let tm := mkTaskMap tasks.

Lemma deps_all_known i task :
  tm !! i = Some task →
  filter (λ d, is_Some (tm !! d)) (dependencies task) = dependencies task.
Proof.
  intros Hi. apply mkTaskMap_lookup_Some in Hi as [Hin _].
  apply filter_all. apply Forall_forall. intros d Hd.
  apply mkTaskMap_lookup_is_Some. by eapply Hclosed.
Qed.

Lemma mapM_tierDirect_collect ds :
  Forall (λ d, ∃ n k, tierDirect tm n d = Some (Num k)) ds →
  ∃ n ks, mapM (tierDirect tm n) ds = Some (Num <$> ks)
          ∧ length ks = length ds.
Proof.
  induction 1 as [|d ds (n1 & k & Hd) _ (n2 & ks & Hds & Hlen)].
  { exists 0, []. split; reflexivity. }
  exists (n1 `max` n2), (k :: ks). split; [|cbn; lia].
  apply mapM_Some. rewrite fmap_cons. constructor.
  - eapply tierDirect_mono; [done|lia].
  - apply mapM_Some in Hds. eapply Forall2_impl; [done|].
    intros d' w Hd'. eapply tierDirect_mono; [exact Hd'|lia].
Qed.

Lemma tierIs_exists i : ∃ n, tierIs tasks i n.
Proof.
  unfold tierIs. fold tm.
  induction (acyclic_sn tasks i Hacyclic) as [i _ IH].
  destruct (tm !! i) as [task|] eqn:Htask.
  2:{ exists 0, 1. cbn. by rewrite Htask. }
  destruct (decide (dependencies task = [])) as [Hnil|Hdeps].
  { exists 0, 1. cbn. rewrite Htask. by rewrite bool_decide_eq_true_2. }
  destruct (mapM_tierDirect_collect (dependencies task))
    as (n & ks & Hks & Hlen).
  { apply Forall_forall. intros d Hd.
    destruct (IH d) as (k & n & Hk); [|by eauto].
    pose proof Htask as [Hin Hid]%mkTaskMap_lookup_Some.
    exists task. done. }
  exists (S (max_list ks)), (S n). cbn [tierDirect]. rewrite Htask.
  rewrite bool_decide_eq_false_2 by done.
  rewrite (deps_all_known i) by done. rewrite Hks. cbn.
  rewrite Math_max_Num; [done|].
  intros ->. destruct (dependencies task); [done|discriminate].
Qed.

Lemma tierIs_fun i n m : tierIs tasks i n → tierIs tasks i m → n = m.
Proof.
  intros [f1 H1] [f2 H2].
  pose proof (tierDirect_fun _ _ _ _ _ _ H1 H2). congruence.
Qed.

Lemma tierDirect_is_Num fuel i v :
  tierDirect tm fuel i = Some v → ∃ n, v = Num n ∧ tierIs tasks i n.
Proof.
  intros Hv. destruct (tierIs_exists i) as [n [f Hn]].
  exists n. split; [|by exists f].
  by eapply tierDirect_fun.
Qed.

(** A depth that is enough for every task of the list. *)
Lemma tierDirect_uniform (ids : list string) :
  ∃ N, ∀ fuel i, N ≤ fuel → i ∈ ids →
    ∃ n, tierDirect tm fuel i = Some (Num n).
Proof.
  induction ids as [|i ids [N IH]].
  { exists 0. intros ? ? _ H. by apply elem_of_nil in H. }
  destruct (tierIs_exists i) as (n & f & Hn).
  exists (f `max` N). intros fuel j Hle [->|Hj]%elem_of_cons.
  - exists n. eapply tierDirect_mono; [done|lia].
  - apply IH; [lia|done].
Qed.

(** The tier equations. *)
Lemma tierIs_root i task n :
  tm !! i = Some task → dependencies task = [] → tierIs tasks i n → n = 0.
Proof.
  intros Htask Hnil [[|f] Hf]; [done|]. fold tm in Hf. cbn in Hf.
  rewrite Htask, bool_decide_eq_true_2 in Hf by done. congruence.
Qed.

Lemma tierIs_step i task n :
  tm !! i = Some task → dependencies task ≠ [] → tierIs tasks i n →
  ∃ ns, Forall2 (tierIs tasks) (dependencies task) ns ∧ n = S (max_list ns).
Proof.
  intros Htask Hdeps [[|f] Hf]; [done|]. fold tm in Hf. cbn [tierDirect] in Hf.
  rewrite Htask, bool_decide_eq_false_2 in Hf by done.
  rewrite (deps_all_known i) in Hf by done.
  apply bind_Some in Hf as (vs & Hvs & Hn). apply mapM_Some in Hvs.
  assert (∃ ns, vs = Num <$> ns
                ∧ Forall2 (tierIs tasks) (dependencies task) ns)
    as (ns & -> & Hns).
  { clear Hn Hdeps. induction Hvs as [|d v ds vs Hd _ (ns & -> & IH)].
    - by exists [].
    - apply tierDirect_is_Num in Hd as (k & -> & Hk).
      exists (k :: ns). split; [done|by constructor]. }
  exists ns. split; [done|].
  rewrite Math_max_Num in Hn; [cbn in Hn; congruence|].
  intros ->. apply Forall2_nil_inv_r in Hns. done.
Qed.

End tiers_exist.

(** ** The two loops of [computeTiers] *)

Lemma fillTiers_ok tm fuel ts tierOf :
  memo_ok tm tierOf →
  (∀ t, t ∈ ts → ∃ v, tierDirect tm fuel (id t) = Some v) →
  ∃ tierOf', fillTiers tm fuel ts tierOf = Some tierOf'
             ∧ memo_ok tm tierOf' ∧ grows tierOf tierOf'
             ∧ ∀ t, t ∈ ts → is_Some (tierOf' !! id t).
Proof.
  revert tierOf. induction ts as [|t ts IH]; intros tierOf Hok Hts.
  { exists tierOf. split_and!; [done|done|by intros ?|].
    intros t H. by apply elem_of_nil in H. }
  destruct (Hts t) as [v Hv]; [apply elem_of_cons; auto|].
  destruct (getTier_direct tm fuel (id t) v tierOf Hv Hok)
    as (m1 & Hm1 & Hok1 & Hg1 & Ht).
  destruct (IH m1 Hok1) as (m2 & Hm2 & Hok2 & Hg2 & Hall).
  { intros t' Ht'. apply Hts. apply elem_of_cons; auto. }
  exists m2. cbn [fillTiers]. rewrite Hm1. split_and!.
  - done.
  - done.
  - by eapply grows_trans.
  - intros t' [->|Ht']%elem_of_cons; [|by apply Hall].
    apply Hg2. rewrite Ht. eauto.
Qed.

Lemma tierOrZero_Num tierOf i n :
  tierOf !! i = Some (Num n) → tierOrZero tierOf i = Num n.
Proof. unfold tierOrZero. intros ->. by destruct n. Qed.

Lemma concat_mjoin {A} (ls : list (list A)) : concat ls = mjoin ls.
Proof. induction ls as [|l ls IH]; [done|]. cbn. by rewrite IH. Qed.

Lemma mjoin_pad {A} (ls : list (list A)) k :
  mjoin (ls ++ replicate k []) = mjoin ls.
Proof.
  rewrite join_app. assert (mjoin (replicate k (@nil A)) = []) as ->.
  { induction k as [|k IH]; [done|exact IH]. }
  apply app_nil_r.
Qed.

Lemma inTier_pad tiers k n x :
  inTier (tiers ++ replicate k []) n x ↔ inTier tiers n x.
Proof.
  unfold inTier. split.
  - intros (tier & Hn & Hx). apply lookup_app_Some in Hn as [Hn|[_ Hn]].
    + eauto.
    + apply lookup_replicate in Hn as [-> _]. by apply elem_of_nil in Hx.
  - intros (tier & Hn & Hx). exists tier. split; [|done].
    by apply lookup_app_l_Some.
Qed.

Lemma mjoin_push {A} (ls : list (list A)) n x :
  n < length ls → mjoin (alter (λ l, l ++ [x]) n ls) ≡ₚ x :: mjoin ls.
Proof.
  revert n. induction ls as [|l ls IH]; intros n Hn; [cbn in Hn; lia|].
  destruct n as [|n]; cbn.
  - rewrite <- (assoc_L (++)). cbn. symmetry. apply Permutation_middle.
  - rewrite IH by (cbn in Hn; lia). symmetry. apply Permutation_middle.
Qed.

Lemma inTier_push tiers n t k x :
  n < length tiers →
  inTier (alter (λ l, l ++ [t]) n tiers) k x
  ↔ inTier tiers k x ∨ (k = n ∧ x = t).
Proof.
  intros Hn. unfold inTier. destruct (decide (k = n)) as [->|Hne].
  - rewrite list_lookup_alter_eq.
    destruct (lookup_lt_is_Some_2 tiers n Hn) as [tier Htier].
    rewrite Htier. split.
    + intros (tier' & Heq & Hx). simplify_eq/=.
      apply elem_of_app in Hx as [Hx|Hx%list_elem_of_singleton]; eauto.
    + intros [(tier' & Heq & Hx)|[_ ->]]; simplify_eq/=.
      * eexists. split; [done|]. apply elem_of_app. auto.
      * eexists. split; [done|]. apply elem_of_app. right.
        by apply list_elem_of_singleton.
  - rewrite list_lookup_alter_ne by done. split; [auto|]. intros [?|[? _]]; done.
Qed.

Lemma placeTask_ok tierOf tiers t n :
  tierOrZero tierOf (id t) = Num n →
  ∃ tiers', placeTask tierOf tiers t = Some tiers'
            ∧ mjoin tiers' ≡ₚ t :: mjoin tiers
            ∧ ∀ k x, inTier tiers' k x ↔ inTier tiers k x ∨ (k = n ∧ x = t).
Proof.
  intros Hn. unfold placeTask. rewrite Hn. eexists. split; [done|].
  assert (n < length (tiers ++ replicate (S n - length tiers) [])) as Hlen.
  { rewrite length_app, length_replicate. lia. }
  split.
  - rewrite mjoin_push by done. by rewrite mjoin_pad.
  - intros k x. rewrite inTier_push by done. by rewrite inTier_pad.
Qed.

Lemma placeTasks_ok tierOf tiers ts (tier : Task → nat) :
  (∀ t, t ∈ ts → tierOrZero tierOf (id t) = Num (tier t)) →
  ∃ tiers', placeTasks tierOf tiers ts = Some tiers'
            ∧ mjoin tiers' ≡ₚ mjoin tiers ++ ts
            ∧ ∀ k x, inTier tiers' k x
                     ↔ inTier tiers k x ∨ (x ∈ ts ∧ tier x = k).
Proof.
  revert tiers. induction ts as [|t ts IH]; intros tiers Hts.
  { exists tiers. split_and!; [done|by rewrite app_nil_r|].
    intros k x. rewrite elem_of_nil. tauto. }
  destruct (placeTask_ok tierOf tiers t (tier t)) as (tiers1 & H1 & Hp1 & Hin1).
  { apply Hts, elem_of_cons; auto. }
  destruct (IH tiers1) as (tiers2 & H2 & Hp2 & Hin2).
  { intros t' Ht'. apply Hts, elem_of_cons; auto. }
  exists tiers2. cbn [placeTasks]. rewrite H1. split_and!.
  - done.
  - rewrite Hp2, Hp1. cbn. apply Permutation_middle.
  - intros k x. rewrite Hin2, Hin1, elem_of_cons. intuition congruence.
Qed.

(** ** What [computeTiers] returns *)

Lemma computeTiers_spec tasks :
  dep_closed tasks → acyclic tasks →
  ∃ N, ∀ fuel, N ≤ fuel →
    ∃ tiers, computeTiers fuel tasks = Returns tiers
             ∧ concat tiers ≡ₚ tasks
             ∧ ∀ n t, inTier tiers n t ↔ t ∈ tasks ∧ tierIs tasks (id t) n.
Proof.
  intros Hclosed Hacyclic.
  destruct (tierDirect_uniform tasks Hclosed Hacyclic (id <$> tasks))
    as [N HN].
  exists N. intros fuel Hfuel. unfold computeTiers.
  set (tm := mkTaskMap tasks) in *.
  destruct (fillTiers_ok tm fuel tasks ∅) as (m & -> & Hok & _ & Hall).
  { intros k w Hk. by rewrite lookup_empty in Hk. }
  { intros t Ht. destruct (HN fuel (id t)) as [n Hn]; [done| |by eauto].
    apply list_elem_of_fmap. eauto. }
  (* each task's entry in the memo table is its tier *)
  assert (Htier : ∀ t, t ∈ tasks →
            ∃ n, tierOrZero m (id t) = Num n ∧ tierIs tasks (id t) n).
  { intros t Ht. destruct (Hall t Ht) as [w Hw].
    destruct (Hok _ _ Hw) as [f Hf].
    destruct (tierDirect_is_Num tasks Hclosed Hacyclic f (id t) w Hf)
      as (n & -> & Hn).
    exists n. split; [by apply tierOrZero_Num|done]. }
  set (tier := λ t, match tierOrZero m (id t) with
                    | Num n => n | NegInfinity => 0 end).
  destruct (placeTasks_ok m [] tasks tier) as (tiers & -> & Hperm & Hin).
  { intros t Ht. destruct (Htier t Ht) as (n & Hn & _).
    unfold tier. by rewrite Hn. }
  exists tiers. split; [done|]. split.
  { by rewrite concat_mjoin, Hperm. }
  intros n t. rewrite Hin. split.
  - intros [(? & Hnil & _)|[Ht <-]]; [by rewrite lookup_nil in Hnil|].
    split; [done|]. destruct (Htier t Ht) as (n & Hn & Hn').
    unfold tier. by rewrite Hn.
  - intros [Ht Hn]. right. split; [done|].
    destruct (Htier t Ht) as (n' & Hn' & Hn'').
    unfold tier. rewrite Hn'. by eapply tierIs_fun.
Qed.

(** ** The index map *)

Lemma buildIndexMap_flat tiers :
  buildIndexMap tiers = fst (indexFrom (∅, 0) (mjoin tiers)).
Proof.
  unfold buildIndexMap. f_equal. generalize (∅ : gmap string nat, 0).
  induction tiers as [|tier tiers IH]; intros acc; [done|].
  cbn [foldl]. rewrite IH. unfold indexFrom. cbn. by rewrite foldl_app.
Qed.

Lemma indexFrom_keeps ts acc i :
  is_Some (acc.1 !! i) → is_Some ((indexFrom acc ts).1 !! i).
Proof.
  revert acc. induction ts as [|t ts IH]; intros [m k] Hi; [done|].
  change (indexFrom (m, k) (t :: ts))
    with (indexFrom (<[id t := k]> m, S k) ts).
  apply IH. cbn in *. destruct (decide (id t = i)) as [<-|Hne].
  - rewrite lookup_insert_eq. eauto.
  - by rewrite lookup_insert_ne.
Qed.

Lemma indexFrom_spec ts m0 k0 :
  ∃ m, indexFrom (m0, k0) ts = (m, k0 + length ts)
       ∧ (∀ i p, m !! i = Some p →
            m0 !! i = Some p
            ∨ (k0 ≤ p ∧ ∃ t, ts !! (p - k0) = Some t ∧ id t = i))
       ∧ (∀ i, i ∈ id <$> ts → is_Some (m !! i)).
Proof.
  revert m0 k0. induction ts as [|t ts IH]; intros m0 k0.
  { exists m0. split_and!; [cbn; f_equal; lia|auto|].
    intros i H. by apply elem_of_nil in H. }
  destruct (IH (<[id t := k0]> m0) (S k0)) as (m & Hm & Hpos & Hdom).
  assert (Hkeep : ∀ i, is_Some (<[id t := k0]> m0 !! i) → is_Some (m !! i)).
  { intros i Hi.
    pose proof (indexFrom_keeps ts (<[id t := k0]> m0, S k0) i Hi) as Hk.
    by rewrite Hm in Hk. }
  exists m. split_and!.
  - change (indexFrom (m0, k0) (t :: ts))
      with (indexFrom (<[id t := k0]> m0, S k0) ts).
    rewrite Hm. cbn. f_equal. lia.
  - intros i p Hp. destruct (Hpos i p Hp) as [Hold|(Hle & t' & Ht' & Hid)].
    + destruct (decide (id t = i)) as [<-|Hne].
      * rewrite lookup_insert_eq in Hold. injection Hold as <-.
        right. split; [lia|]. exists t. by rewrite Nat.sub_diag.
      * rewrite lookup_insert_ne in Hold by done. auto.
    + right. split; [lia|]. exists t'. split; [|done].
      replace (p - k0) with (S (p - S k0)) by lia. done.
  - intros i [->|Hi]%elem_of_cons.
    + apply Hkeep. rewrite lookup_insert_eq. eauto.
    + by apply Hdom.
Qed.

Lemma buildIndexMap_lookup tiers i :
  i ∈ id <$> mjoin tiers →
  ∃ p t, buildIndexMap tiers !! i = Some p
         ∧ mjoin tiers !! p = Some t ∧ id t = i.
Proof.
  intros Hi. rewrite buildIndexMap_flat.
  destruct (indexFrom_spec (mjoin tiers) ∅ 0) as (m & -> & Hpos & Hdom).
  destruct (Hdom i Hi) as [p Hp]. exists p.
  destruct (Hpos i p Hp) as [Hempty|(_ & t & Ht & Hid)].
  { by rewrite lookup_empty in Hempty. }
  rewrite Nat.sub_0_r in Ht. eauto.
Qed.

(** Positions in the concatenation follow the order of the tiers. *)
Lemma mjoin_offset_le {A} (ls : list (list A)) a b l :
  a < b → ls !! a = Some l →
  length (mjoin (take a ls)) + length l ≤ length (mjoin (take b ls)).
Proof.
  intros Hab Ha.
  replace b with (S a + (b - S a)) by lia.
  rewrite <- take_take_drop, (take_S_r _ _ _ Ha), !join_app, !length_app.
  cbn. rewrite app_nil_r. lia.
Qed.

Lemma mjoin_lookup_order {A} (ls : list (list A)) p q x y a b :
  mjoin ls !! p = Some x → mjoin ls !! q = Some y →
  (∀ n, (∃ l, ls !! n = Some l ∧ x ∈ l) → n = a) →
  (∀ n, (∃ l, ls !! n = Some l ∧ y ∈ l) → n = b) →
  a < b → p < q.
Proof.
  intros (j1 & l1 & i1 & Hl1 & Hx & ->)%join_lookup_Some
         (j2 & l2 & i2 & Hl2 & Hy & ->)%join_lookup_Some Ha Hb Hab.
  assert (j1 = a) as ->.
  { apply Ha. exists l1. split; [done|]. by eapply list_elem_of_lookup_2. }
  assert (j2 = b) as ->.
  { apply Hb. exists l2. split; [done|]. by eapply list_elem_of_lookup_2. }
  rewrite <- !length_join.
  pose proof (mjoin_offset_le ls a b l1 Hab Hl1).
  apply lookup_lt_Some in Hx. lia.
Qed.

(** ** A checkable condition for well-formed task lists *)

Lemma orderedAfter_inv seen tasks :
  orderedAfter seen tasks = true →
  NoDup (id <$> tasks)
  ∧ (∀ i, i ∈ id <$> tasks → i ∉ seen)
  ∧ (∀ k t d, tasks !! k = Some t → d ∈ dependencies t →
       d ∈ seen ∨ ∃ j, j < k ∧ (id <$> tasks) !! j = Some d).
Proof.
  revert seen. induction tasks as [|t tasks IH]; intros seen Hord.
  { split_and!; [constructor|by intros ? ?%elem_of_nil|done]. }
  cbn [orderedAfter] in Hord.
  apply andb_true_iff in Hord as [[Hfresh Hdeps]%andb_true_iff Hrest].
  apply bool_decide_eq_true in Hfresh.
  destruct (IH _ Hrest) as (Hnd & Hnew & Hback).
  split_and!.
  - rewrite fmap_cons. apply NoDup_cons. split; [|done].
    intros Hin. apply (Hnew _ Hin). apply elem_of_app. right.
    by apply list_elem_of_singleton.
  - intros i [->|Hi]%elem_of_cons; [done|].
    intros Hs. apply (Hnew _ Hi). apply elem_of_app. auto.
  - intros [|k] t' d Ht' Hd.
    + injection Ht' as <-. left.
      rewrite forallb_forall in Hdeps.
      apply list_elem_of_In, Hdeps, bool_decide_eq_true in Hd. done.
    + destruct (Hback k t' d Ht' Hd)
        as [[Hs| ->%list_elem_of_singleton]%elem_of_app|(j & Hj & Hjd)].
      * by left.
      * right. exists 0. split; [lia|done].
      * right. exists (S j). split; [lia|done].
Qed.

Lemma orderedAfter_sound tasks :
  orderedAfter [] tasks = true →
  NoDup (id <$> tasks) ∧ dep_closed tasks ∧ acyclic tasks.
Proof.
  intros (Hnd & _ & Hback)%orderedAfter_inv.
  assert (Hstep : ∀ x y, dependsOn tasks x y →
            ∃ kx ky, (id <$> tasks) !! kx = Some x
                     ∧ (id <$> tasks) !! ky = Some y ∧ ky < kx).
  { intros x y (t & [k Hk]%list_elem_of_lookup_1 & <- & Hy).
    destruct (Hback k t y Hk Hy) as [[]%elem_of_nil|(j & Hj & Hjy)].
    exists k, j. split_and!; [|done|done].
    by rewrite list_lookup_fmap, Hk. }
  split_and!; [done| |].
  - intros t d [k Hk]%list_elem_of_lookup_1 Hd.
    destruct (Hback k t d Hk Hd) as [[]%elem_of_nil|(j & _ & Hjd)].
    by eapply list_elem_of_lookup_2.
  - assert (Htc : ∀ x y, tc (dependsOn tasks) x y →
              ∃ kx ky, (id <$> tasks) !! kx = Some x
                       ∧ (id <$> tasks) !! ky = Some y ∧ ky < kx).
    { induction 1 as [x y Hxy|x z y Hxz _ (kz & ky & Hkz & Hky & Hlt)];
        [by apply Hstep|].
      destruct (Hstep _ _ Hxz) as (kx & kz' & Hkx & Hkz' & Hlt').
      assert (kz = kz') as <- by (by eapply NoDup_lookup).
      exists kx, ky. split_and!; [done|done|lia]. }
    intros x (k1 & k2 & H1 & H2 & Hlt)%Htc.
    assert (k1 = k2) by (by eapply NoDup_lookup). lia.
Qed.

Lemma Forall2_impl_elem {A B} (P Q : A → B → Prop) l k :
  Forall2 P l k → (∀ x y, x ∈ l → P x y → Q x y) → Forall2 Q l k.
Proof.
  induction 1 as [|x y l k Hxy _ IH]; intros HPQ; constructor.
  - apply HPQ; [apply elem_of_cons; auto|done].
  - apply IH. intros x' y' Hin. apply HPQ. apply elem_of_cons; auto.
Qed.

(** ** The tier layout *)

(** C6. On a dependency-closed, acyclic task list the recursion of
    [getTier] is well-founded along the dependency relation and
    [computeTiers] returns: every recursion depth from some depth on gives
    a list of tiers that is a rearrangement of the input tasks in which
    each task sits in exactly one tier, numbered by a natural number. *)
Theorem computeTiers_partitions tasks :
  dep_closed tasks → acyclic tasks →
  (∀ x, Acc (flip (dependsOn tasks)) x)
  ∧ ∃ N, ∀ fuel, N ≤ fuel →
      ∃ tiers, computeTiers fuel tasks = Returns tiers
               ∧ concat tiers ≡ₚ tasks
               ∧ ∀ t, t ∈ tasks →
                   ∃ n, inTier tiers n t ∧ ∀ m, inTier tiers m t → m = n.
Proof.
  intros Hclosed Hacyclic.
  split; [intros x; by apply acyclic_sn|].
  destruct (computeTiers_spec tasks Hclosed Hacyclic) as [N HN].
  exists N. intros fuel Hfuel.
  destruct (HN fuel Hfuel) as (tiers & Hret & Hperm & Hin).
  exists tiers. split_and!; [done|done|].
  intros t Ht. destruct (tierIs_exists tasks Hclosed Hacyclic (id t)) as [n Hn].
  exists n. split; [by apply Hin|].
  intros m [_ Hm]%Hin. by eapply tierIs_fun.
Qed.

Lemma computeTiers_partitions_witness :
  dep_closed diamondOrdered ∧ acyclic diamondOrdered
  ∧ (∀ x, Acc (flip (dependsOn diamondOrdered)) x)
  ∧ ∃ N, ∀ fuel, N ≤ fuel →
      ∃ tiers, computeTiers fuel diamondOrdered = Returns tiers
               ∧ concat tiers ≡ₚ diamondOrdered
               ∧ ∀ t, t ∈ diamondOrdered →
                   ∃ n, inTier tiers n t ∧ ∀ m, inTier tiers m t → m = n.
Proof.
  assert (H : orderedAfter [] diamondOrdered = true) by (vm_compute; reflexivity).
  destruct (orderedAfter_sound _ H) as (_ & Hclosed & Hacyclic).
  split; [exact Hclosed|]. split; [exact Hacyclic|].
  exact (computeTiers_partitions diamondOrdered Hclosed Hacyclic).
Defined.

(** C5. On a dependency-closed, acyclic list of tasks with distinct
    identifiers, [computeTiers] puts each task without dependencies in
    tier 0 and every other task in tier 1 + the largest tier of its
    dependencies, so each dependency sits in a strictly lower tier; and
    the index [buildIndexMap] gives a task is strictly greater than the
    index of each of its dependencies. *)
Theorem computeTiers_topological tasks :
  NoDup (id <$> tasks) → dep_closed tasks → acyclic tasks →
  ∃ N, ∀ fuel, N ≤ fuel →
    ∃ tiers, computeTiers fuel tasks = Returns tiers
      ∧ (∀ t, t ∈ tasks →
           ∃ n, inTier tiers n t
             ∧ (dependencies t = [] → n = 0)
             ∧ (dependencies t ≠ [] →
                  ∃ ns, Forall2 (λ d nd, ∃ td, td ∈ tasks ∧ id td = d
                                               ∧ inTier tiers nd td)
                                (dependencies t) ns
                        ∧ n = S (max_list ns))
             ∧ (∀ td m, id td ∈ dependencies t → inTier tiers m td → m < n))
      ∧ (∀ t d, t ∈ tasks → d ∈ dependencies t →
           ∃ i j, buildIndexMap tiers !! id t = Some i
                  ∧ buildIndexMap tiers !! d = Some j ∧ j < i).
Proof.
  intros Hnd Hclosed Hacyclic.
  destruct (computeTiers_spec tasks Hclosed Hacyclic) as [N HN].
  exists N. intros fuel Hfuel.
  destruct (HN fuel Hfuel) as (tiers & Hret & Hperm & Hin).
  exists tiers. split; [done|].
  assert (Hlower : ∀ t d n m, t ∈ tasks → d ∈ dependencies t →
            tierIs tasks (id t) n → tierIs tasks d m → m < n).
  { intros t d n m Ht Hd Hn Hm.
    pose proof (mkTaskMap_lookup_NoDup tasks t Hnd Ht) as Htm.
    destruct (tierIs_step tasks Hclosed Hacyclic (id t) t n Htm)
      as (ns & Hns & ->); [by intros Hnil; rewrite Hnil in Hd;
                           apply elem_of_nil in Hd|done|].
    destruct (proj1 (list_elem_of_lookup _ _) Hd) as [k Hk].
    destruct (Forall2_lookup_l _ _ _ _ _ Hns Hk) as (m' & Hm' & Hdm').
    assert (m = m') as <- by (by eapply tierIs_fun).
    apply list_elem_of_lookup_2, max_list_elem_of_le in Hm'. lia. }
  split.
  - intros t Ht.
    destruct (tierIs_exists tasks Hclosed Hacyclic (id t)) as [n Hn].
    pose proof (mkTaskMap_lookup_NoDup tasks t Hnd Ht) as Htm.
    exists n. split_and!.
    + by apply Hin.
    + intros Hnil. by eapply tierIs_root.
    + intros Hdeps.
      destruct (tierIs_step tasks Hclosed Hacyclic (id t) t n Htm Hdeps Hn)
        as (ns & Hns & ->).
      exists ns. split; [|done].
      eapply Forall2_impl_elem; [exact Hns|]. intros d nd Hd Hdnd.
      destruct (proj1 (list_elem_of_fmap _ _ _) (Hclosed t d Ht Hd))
        as (td & -> & Htd).
      exists td. split_and!; [done|done|by apply Hin].
    + intros td m Hd [Htd Hm]%Hin. exact (Hlower t (id td) n m Ht Hd Hn Hm).
  - intros t d Ht Hd.
    destruct (tierIs_exists tasks Hclosed Hacyclic (id t)) as [n Hn].
    destruct (tierIs_exists tasks Hclosed Hacyclic d) as [m Hm].
    pose proof (Hlower t d n m Ht Hd Hn Hm) as Hlt.
    rewrite concat_mjoin in Hperm.
    destruct (buildIndexMap_lookup tiers (id t)) as (i & t' & Hi & Hti & Hidt).
    { rewrite Hperm. apply list_elem_of_fmap. eauto. }
    destruct (buildIndexMap_lookup tiers d) as (j & td & Hj & Htj & Hidd).
    { rewrite Hperm. by eapply Hclosed. }
    exists i, j. split_and!; [done|done|].
    eapply (mjoin_lookup_order tiers j i td t' m n); [done|done| | |done].
    + intros k Hk. apply Hin in Hk as [_ Hk]. rewrite Hidd in Hk.
      by eapply tierIs_fun.
    + intros k Hk. apply Hin in Hk as [_ Hk]. rewrite Hidt in Hk.
      by eapply tierIs_fun.
Qed.

Lemma computeTiers_topological_witness :
  NoDup (id <$> diamondOrdered) ∧ dep_closed diamondOrdered
  ∧ acyclic diamondOrdered
  ∧ ∃ N, ∀ fuel, N ≤ fuel →
      ∃ tiers, computeTiers fuel diamondOrdered = Returns tiers
        ∧ (∀ t, t ∈ diamondOrdered →
             ∃ n, inTier tiers n t
               ∧ (dependencies t = [] → n = 0)
               ∧ (dependencies t ≠ [] →
                    ∃ ns, Forall2 (λ d nd, ∃ td, td ∈ diamondOrdered
                                                 ∧ id td = d
                                                 ∧ inTier tiers nd td)
                                  (dependencies t) ns
                          ∧ n = S (max_list ns))
               ∧ (∀ td m, id td ∈ dependencies t → inTier tiers m td → m < n))
        ∧ (∀ t d, t ∈ diamondOrdered → d ∈ dependencies t →
             ∃ i j, buildIndexMap tiers !! id t = Some i
                    ∧ buildIndexMap tiers !! d = Some j ∧ j < i).
Proof.
  assert (H : orderedAfter [] diamondOrdered = true) by (vm_compute; reflexivity).
  destruct (orderedAfter_sound _ H) as (Hnd & Hclosed & Hacyclic).
  split; [exact Hnd|]. split; [exact Hclosed|]. split; [exact Hacyclic|].
  exact (computeTiers_topological diamondOrdered Hnd Hclosed Hacyclic).
Defined.

(** ** [computeTiers] on sample lists *)

Example computeTiers_diamond :
  computeTiers 3 diamond =
    Returns [ [sampleTask "T1" []];
              [sampleTask "T3" ["T1"]; sampleTask "T2" ["T1"]];
              [sampleTask "T4" ["T2"; "T3"]] ].
Proof. vm_compute. reflexivity. Qed.

Example computeTiers_diamond_shallow : computeTiers 2 diamond = Overflows.
Proof. vm_compute. reflexivity. Qed.

Example computeTiers_dangling :
  computeTiers 5 [sampleTask "T1" ["ghost"]] = Throws.
Proof. vm_compute. reflexivity. Qed.

Example computeTiers_cycle n :
  computeTiers n [sampleTask "T1" ["T1"]] = Overflows.
Proof.
  unfold computeTiers. cbn [fillTiers].
  set (tm := mkTaskMap _).
  assert (Htm : tm !! "T1" = Some (sampleTask "T1" ["T1"])) by done.
  assert (H : ∀ n, getTier tm n "T1" ∅ = None).
  { clear -Htm. induction n as [|n IH]; [done|].
    cbn [getTier]. rewrite lookup_empty, Htm.
    rewrite bool_decide_eq_false_2 by done.
    cbn [sampleTask dependencies].
    rewrite filter_cons_True by (rewrite Htm; eauto).
    cbn [mapTiers]. by rewrite IH. }
  change (id (sampleTask "T1" ["T1"])) with "T1". by rewrite H.
Qed.

Example buildIndexMap_diamond :
  ∃ tiers, computeTiers 3 diamond = Returns tiers ∧
    buildIndexMap tiers !! "T1" = Some 0 ∧
    buildIndexMap tiers !! "T3" = Some 1 ∧
    buildIndexMap tiers !! "T2" = Some 2 ∧
    buildIndexMap tiers !! "T4" = Some 3.
Proof. eexists. split; [vm_compute; reflexivity|]. vm_compute. done. Qed.

(** ** The mutation engine *)

Lemma tc_impl {A} (R S : relation A) x y :
  (∀ a b, R a b → S a b) → tc R x y → tc S x y.
Proof.
  intros HRS. induction 1 as [x y Hxy|x z y Hxz _ IH].
  - apply tc_once. auto.
  - eapply tc_l; eauto.
Qed.

Section invalidation.
Context (g : gmap string TaskNode).

Lemma elem_of_dependents targets x :
  x ∈ dependents g targets ↔ ∃ d, d ∈ targets ∧ node_depends g x d.
Proof.
  unfold dependents, node_depends. rewrite elem_of_dom. split.
  - intros [n [Hn Hex]%map_lookup_filter_Some]. cbn in Hex.
    apply Exists_exists in Hex as (d & Hd & Hdt). eauto.
  - intros (d & Hdt & n & Hn & Hd). exists n.
    apply map_lookup_filter_Some. split; [done|]. cbn.
    apply Exists_exists. eauto.
Qed.

Lemma dependents_dom targets : dependents g targets ⊆ dom g.
Proof.
  intros x (d & _ & n & Hn & _)%elem_of_dependents.
  apply elem_of_dom. eauto.
Qed.

(** The rounds of [transitive_dependents]. *)
Let round (t : string) (k : nat) : gset string :=
  Nat.iter k (λ acc, acc ∪ dependents g acc) (dependents g {[t]}).

Lemma round_S t k :
  round t (S k) = round t k ∪ dependents g (round t k).
Proof. done. Qed.

Lemma round_dom t k : round t k ⊆ dom g.
Proof.
  induction k as [|k IH]; [apply dependents_dom|].
  rewrite round_S. pose proof (dependents_dom (round t k)). set_solver.
Qed.

Lemma round_sound t k x : x ∈ round t k → tc (node_depends g) x t.
Proof.
  revert x. induction k as [|k IH]; intros x.
  - intros (d & ->%elem_of_singleton & Hx)%elem_of_dependents.
    by apply tc_once.
  - rewrite round_S, elem_of_union.
    intros [Hx|(d & Hd & Hx)%elem_of_dependents]; [by apply IH|].
    eapply tc_l; [done|by apply IH].
Qed.

(** Each round either adds a task or has reached the closure. *)
Lemma round_progress t k :
  dependents g (round t k) ⊆ round t k ∨ k ≤ size (round t k).
Proof.
  induction k as [|k IH]; [right; lia|].
  destruct (decide (dependents g (round t k) ⊆ round t k)) as [Hfix|Hnew].
  { left. rewrite round_S.
    replace (round t k ∪ dependents g (round t k)) with (round t k);
      [done|]. set_solver. }
  destruct IH as [?|Hsize]; [done|]. right.
  assert (round t k ⊂ round t (S k)) as Hlt%subset_size; [|lia].
  rewrite round_S. split; [set_solver|]. intros Hsub. apply Hnew.
  set_solver.
Qed.

Lemma round_closed t :
  dependents g (round t (size g)) ⊆ round t (size g).
Proof.
  destruct (round_progress t (size g)) as [?|Hsize]; [done|].
  assert (round t (size g) = dom g) as Heq.
  { apply set_subseteq_size_eq; [apply round_dom|]. by rewrite size_dom. }
  rewrite Heq. apply dependents_dom.
Qed.

Lemma round_mono t k : round t 0 ⊆ round t k.
Proof.
  induction k as [|k IH]; [done|]. rewrite round_S. set_solver.
Qed.

Lemma elem_of_transitive_dependents t x :
  x ∈ transitive_dependents g t ↔ tc (node_depends g) x t.
Proof.
  change (transitive_dependents g t) with (round t (size g)). split.
  - apply round_sound.
  - induction 1 as [x t Hxt|x z t Hxz _ IH].
    + apply round_mono. apply elem_of_dependents. exists t.
      split; [by apply elem_of_singleton|done].
    + apply round_closed. apply elem_of_dependents. eauto.
Qed.

Lemma elem_of_invalidation_set t x :
  x ∈ invalidation_set g t ↔ rtc (node_depends g) x t.
Proof.
  unfold invalidation_set.
  rewrite elem_of_union, elem_of_singleton, elem_of_transitive_dependents.
  by rewrite rtc_tc.
Qed.

Lemma validGraph_acyclic x :
  validGraph g = true → ¬ tc (node_depends g) x x.
Proof.
  intros [_ Hacyc%bool_decide_eq_true]%andb_true_iff Hx.
  apply (Hacyc x).
  - inversion Hx as [? ? (n & Hn & _)|? ? ? (n & Hn & _)]; subst;
      apply elem_of_dom; eauto.
  - by apply elem_of_transitive_dependents.
Qed.

Lemma lookup_reset_tasks ids x :
  reset_tasks g ids !! x
  = (λ n, if bool_decide (x ∈ ids) then resetNode n else n) <$> g !! x.
Proof.
  unfold reset_tasks. rewrite map_lookup_imap. by destruct (g !! x).
Qed.

Lemma node_depends_reset_tasks ids x d :
  node_depends (reset_tasks g ids) x d ↔ node_depends g x d.
Proof.
  unfold node_depends. rewrite lookup_reset_tasks. split.
  - intros (n & Hn & Hd). destruct (g !! x) as [n0|]; [|done].
    exists n0. split; [done|]. cbn in Hn. injection Hn as <-.
    by destruct (bool_decide _).
  - intros (n & -> & Hd). eexists. split; [done|].
    by destruct (bool_decide _).
Qed.

End invalidation.

(** C7. A successful [edit] of task [t] keeps every task of the action
    stored, [t] included, and adds none.  Afterwards every task from
    which [t] can be reached along dependencies ([t] itself and its
    transitive dependents) is stored as pending with no attached output
    and no summary; every other task is stored exactly as before (status,
    output and artifact references included), in particular every task
    [t] depends on, directly or not; artifact records are untouched. *)
Theorem edit_invalidates_downstream s t p s' :
  edit s t p = Some s' →
  dom (nodes s') = dom (nodes s)
  ∧ (∀ x, rtc (node_depends (nodes s')) x t →
       ∃ n, nodes s' !! x = Some n
            ∧ n_status n = Pending ∧ n_output n = None ∧ n_summary n = None)
  ∧ (∀ x, ¬ rtc (node_depends (nodes s')) x t →
       nodes s' !! x = nodes s !! x)
  ∧ (∀ u, tc (node_depends (nodes s')) t u → nodes s' !! u = nodes s !! u)
  ∧ artifacts s' = artifacts s.
Proof.
  unfold edit. destruct (nodes s !! t) as [n0|] eqn:Ht; [|done].
  set (g := <[t := applyPatch n0 p]> (nodes s)).
  destruct (validGraph g) eqn:Hvalid; [|done]. intros [= <-]. cbn.
  assert (Hrel : ∀ x y, rtc (node_depends (reset_tasks g (invalidation_set g t))) x y
                        ↔ rtc (node_depends g) x y).
  { intros x y. split; intros H; (eapply rtc_subrel; [|exact H]);
      intros a b; apply node_depends_reset_tasks. }
  assert (Hframe : ∀ x, ¬ rtc (node_depends g) x t →
            reset_tasks g (invalidation_set g t) !! x = nodes s !! x).
  { intros x Hx. rewrite lookup_reset_tasks.
    rewrite bool_decide_eq_false_2 by (by rewrite elem_of_invalidation_set).
    assert (t ≠ x) by (intros ->; apply Hx; done).
    unfold g. rewrite lookup_insert_ne by done. by destruct (nodes s !! x). }
  assert (Hstored : ∀ x, rtc (node_depends g) x t → is_Some (g !! x)).
  { intros x Hx. inversion Hx as [|? y ? (n & Hn & _) _]; subst.
    - unfold g. rewrite lookup_insert_eq. by eexists.
    - by eexists. }
  split_and!; [| | | |done].
  - apply set_eq. intros x. rewrite !elem_of_dom, lookup_reset_tasks.
    rewrite fmap_is_Some. unfold g.
    destruct (decide (t = x)) as [<-|Hne].
    + rewrite lookup_insert_eq, Ht. split; intros _; by eexists.
    + by rewrite lookup_insert_ne.
  - intros x Hx%Hrel. rewrite lookup_reset_tasks.
    rewrite bool_decide_eq_true_2 by (by apply elem_of_invalidation_set).
    destruct (Hstored x Hx) as [n ->]. cbn. by eexists.
  - intros x Hx. apply Hframe. by rewrite <- Hrel.
  - intros u Hu. apply Hframe. intros Hback.
    assert (Hu' : tc (node_depends g) t u).
    { eapply tc_impl; [|exact Hu]. intros a b.
      apply node_depends_reset_tasks. }
    apply (validGraph_acyclic g t Hvalid). by eapply tc_rtc_r.
Qed.

Lemma edit_invalidates_downstream_witness :
  ∃ s', edit chainStore "T2" (promptPatch "fit a sine") = Some s'
    ∧ dom (nodes s') = dom (nodes chainStore)
    ∧ (∀ x, rtc (node_depends (nodes s')) x "T2" →
         ∃ n, nodes s' !! x = Some n
              ∧ n_status n = Pending ∧ n_output n = None ∧ n_summary n = None)
    ∧ (∀ x, ¬ rtc (node_depends (nodes s')) x "T2" →
         nodes s' !! x = nodes chainStore !! x)
    ∧ (∀ u, tc (node_depends (nodes s')) "T2" u →
         nodes s' !! u = nodes chainStore !! u)
    ∧ artifacts s' = artifacts chainStore.
Proof.
  eexists. split; [vm_compute; reflexivity|].
  apply (edit_invalidates_downstream chainStore "T2" (promptPatch "fit a sine")).
  vm_compute. reflexivity.
Defined.

(** Scenario E of the specification: editing T2 in the chain
    T1 <- T2 <- T3 resets T2 and T3 and keeps T1 with its output. *)
Example edit_chain_T2 :
  ∃ s', edit chainStore "T2" (promptPatch "fit a sine") = Some s'
    ∧ n_status <$> nodes s' !! "T1" = Some Completed
    ∧ n_output <$> nodes s' !! "T1" = Some (Some (mkOutput "done" ["art1"]))
    ∧ n_status <$> nodes s' !! "T2" = Some Pending
    ∧ n_prompt <$> nodes s' !! "T2" = Some "fit a sine"
    ∧ n_status <$> nodes s' !! "T3" = Some Pending
    ∧ artifacts s' !! "art1" = Some "/files/art1".
Proof. eexists. split; [vm_compute; reflexivity|]. vm_compute. done. Qed.

(** Editing the root invalidates the whole chain. *)
Example edit_chain_T1 :
  ∃ s', edit chainStore "T1" (promptPatch "fetch again") = Some s'
    ∧ n_status <$> nodes s' !! "T1" = Some Pending
    ∧ n_output <$> nodes s' !! "T1" = Some None
    ∧ n_status <$> nodes s' !! "T2" = Some Pending
    ∧ n_status <$> nodes s' !! "T3" = Some Pending.
Proof. eexists. split; [vm_compute; reflexivity|]. vm_compute. done. Qed.

(** A patch that closes a cycle, or names an unknown dependency or task,
    is rejected. *)
Example edit_rejects_cycle :
  edit chainStore "T1" (mkPatch None None None (Some ["T3"])) = None
  ∧ edit chainStore "T1" (mkPatch None None None (Some ["T9"])) = None
  ∧ edit chainStore "T9" (promptPatch "x") = None.
Proof. vm_compute. done. Qed.

(** * Further properties *)

(** ** Store actions *)

(** X1. Two overrides of the same task combine: the later one wins field
    by field and the fields only the earlier one has are kept; overrides
    of different tasks commute. *)
Theorem setTaskOverride_compose taskId o1 o2 st :
  setTaskOverride taskId o2 (setTaskOverride taskId o1 st)
  = setTaskOverride taskId (o2 ∪ o1) st
  ∧ ∀ other o, other ≠ taskId →
      setTaskOverride other o (setTaskOverride taskId o1 st)
      = setTaskOverride taskId o1 (setTaskOverride other o st).
Proof.
  split.
  - unfold setTaskOverride; cbn. f_equal.
    rewrite lookup_insert_eq, insert_insert_eq. cbn.
    by rewrite (assoc_L (∪)).
  - intros other o Hne. unfold setTaskOverride; cbn. f_equal.
    rewrite !lookup_insert_ne by done. by apply insert_insert_ne.
Qed.

(** X2. [resetLogs] forgets the logs of one task only: a line appended
    before it is gone, and clearing twice is clearing once.  After it the
    task has no own list, so the next [appendTaskLog] makes the new line
    the task's only line, unless the identifier names a member of
    [Object.prototype], in which case it throws, whatever the task's logs
    were before the reset. *)
Theorem resetLogs_forgets now taskId lvl msg st :
  (∀ st', appendTaskLog now taskId lvl msg st = Some st' →
     resetLogs taskId st' = resetLogs taskId st)
  ∧ resetLogs taskId (resetLogs taskId st) = resetLogs taskId st
  ∧ (taskId ∉ objectPrototypeKeys →
     ∃ st', appendTaskLog now taskId lvl msg (resetLogs taskId st) = Some st'
            ∧ taskLogs st' !! taskId = Some [mkLog lvl msg now])
  ∧ (taskId ∈ objectPrototypeKeys →
     appendTaskLog now taskId lvl msg (resetLogs taskId st) = None)
  ∧ ∀ other, other ≠ taskId →
      taskLogs (resetLogs taskId st) !! other = taskLogs st !! other.
Proof.
  split_and!.
  - intros st' Hst'.
    destruct (decide (readsInherited (taskLogs st) taskId)) as [Hk|Hk].
    { by rewrite appendTaskLog_None in Hst'. }
    rewrite appendTaskLog_Some in Hst' by done. injection Hst' as <-.
    unfold resetLogs; cbn. f_equal. apply delete_insert_eq.
  - unfold resetLogs; cbn. f_equal. apply delete_delete_eq.
  - intros Hk. eexists. split.
    + apply appendTaskLog_Some. by intros [_ ?].
    + cbn. by rewrite lookup_insert_eq, lookup_delete_eq.
  - intros Hk. apply appendTaskLog_None. split; [|done].
    cbn. apply lookup_delete_eq.
  - intros other Hne. cbn. by rewrite lookup_delete_ne.
Qed.

(** Clearing the logs of "constructor" makes the next line for it throw,
    although appending worked while the task had a list of its own. *)
Example resetLogs_then_append_throws :
  let st := mkStore "a1" ∅ None None
              {[ "constructor" := [mkLog "info" "first" "11:59"] ]} ∅ in
  (taskLogs <$> appendTaskLog "12:00" "constructor" "info" "second" st)
  = Some {[ "constructor" := [mkLog "info" "first" "11:59";
                              mkLog "info" "second" "12:00"] ]}
  ∧ appendTaskLog "12:00" "constructor" "info" "second"
      (resetLogs "constructor" st) = None.
Proof. split; [|reflexivity]. vm_compute. reflexivity. Qed.

(** ** The handler, event by event *)

(** Case analysis over the handler's switch. *)
Ltac onEvent_cases event :=
  unfold onEvent;
  destruct (otherAction _ _); [try done|];
  repeat (match goal with
          | |- context [String.eqb event ?name] =>
              destruct (String.eqb event name) eqn:?
          end).

(** A log case of the handler: the line is recorded unless the read
    finds a member of [Object.prototype]. *)
Lemma withStoreTry_appendTaskLog now taskId lvl msg c :
  withStoreTry (appendTaskLog now taskId lvl msg) c
  = if bool_decide (readsInherited (taskLogs (store c)) taskId) then c
    else mkClient
           (mkStore (currentActionId (store c)) (taskOverrides (store c))
              (actionStatus (store c)) (recoveryAttempt (store c))
              (<[taskId := default [] (taskLogs (store c) !! taskId)
                             ++ [mkLog lvl msg now]]> (taskLogs (store c)))
              (codeExecutions (store c)))
           (errorCount c) (invalidated c).
Proof.
  unfold withStoreTry. case_bool_decide as Hk.
  - by rewrite appendTaskLog_None.
  - by rewrite appendTaskLog_Some.
Qed.

Lemma onEvent_currentActionId actionId now event data c :
  currentActionId (store (onEvent actionId now event data c))
  = currentActionId (store c).
Proof.
  onEvent_cases event; try done;
    try (rewrite withStoreTry_appendTaskLog; by case_bool_decide).
  destruct (snapshot_loop_store (d_tasks data)
              (mkClient (store c) 0 (invalidated c))) as (Hst & _).
  cbn zeta in Hst.
  destruct (snapshot_loop_frame (d_tasks data) (store c)) as (_ & Hid & _).
  destruct (d_status data) as [s|]; [destruct (truthy s)|]; cbn;
    rewrite Hst; exact Hid.
Qed.

Lemma onEvent_taskLogs actionId now event data c :
  taskLogs (store (onEvent actionId now event data c))
  = if negb (otherAction (currentActionId (store c)) actionId)
       && (String.eqb event "log.append" || String.eqb event "code.log")
       && bool_decide (¬ readsInherited (taskLogs (store c)) (d_task_id data))
    then <[d_task_id data :=
             default [] (taskLogs (store c) !! d_task_id data)
             ++ [mkLog (d_level data) (d_message data) now]]>
           (taskLogs (store c))
    else taskLogs (store c).
Proof.
  unfold onEvent. destruct (otherAction _ _); [done|]. cbn [negb andb].
  destruct (String.eqb event "snapshot") eqn:Hsnap.
  { apply String.eqb_eq in Hsnap as ->. cbn.
    destruct (snapshot_loop_store (d_tasks data)
                (mkClient (store c) 0 (invalidated c))) as (Hst & _).
    cbn zeta in Hst.
    destruct (snapshot_loop_frame (d_tasks data) (store c))
      as (_ & _ & _ & Hlogs & _).
    destruct (d_status data) as [s|]; [destruct (truthy s)|]; cbn;
      rewrite Hst; exact Hlogs. }
  repeat (match goal with
          | |- context [String.eqb event ?name] =>
              destruct (String.eqb event name) eqn:?
          end); try done;
    repeat match goal with
           | H : String.eqb event _ = true |- _ =>
               apply String.eqb_eq in H; subst event
           end; try done;
    rewrite withStoreTry_appendTaskLog; cbn [store orb andb];
    rewrite bool_decide_not; by case_bool_decide.
Qed.

(** The log list of one task after one event. *)
Lemma onEvent_taskLogs_lookup actionId now event data c taskId :
  otherAction (currentActionId (store c)) actionId = false →
  taskLogs (store (onEvent actionId now event data c)) !! taskId
  = if (String.eqb event "log.append" || String.eqb event "code.log")
       && String.eqb (d_task_id data) taskId
       && bool_decide (¬ readsInherited (taskLogs (store c)) taskId)
    then Some (default [] (taskLogs (store c) !! taskId)
               ++ [mkLog (d_level data) (d_message data) now])
    else taskLogs (store c) !! taskId.
Proof.
  intros Hc. rewrite onEvent_taskLogs, Hc. cbn [negb andb].
  destruct (String.eqb event "log.append" || String.eqb event "code.log");
    cbn [andb]; [|done].
  destruct (String.eqb (d_task_id data) taskId) eqn:Hid; cbn [andb].
  - apply String.eqb_eq in Hid as ->.
    case_bool_decide; [|done]. by rewrite lookup_insert_eq.
  - apply String.eqb_neq in Hid.
    case_bool_decide; [|done]. by rewrite lookup_insert_ne.
Qed.

Lemma onEvent_recoveryAttempt actionId now event data c :
  event ≠ "action.retrying" →
  recoveryAttempt (store (onEvent actionId now event data c)) = None
  ∨ recoveryAttempt (store (onEvent actionId now event data c))
    = recoveryAttempt (store c).
Proof.
  intros Hne. unfold onEvent. destruct (otherAction _ _); [by right|].
  destruct (String.eqb event "snapshot") eqn:Hsnap.
  { right.
    destruct (snapshot_loop_store (d_tasks data)
                (mkClient (store c) 0 (invalidated c))) as (Hst & _).
    cbn zeta in Hst.
    destruct (snapshot_loop_frame (d_tasks data) (store c))
      as (_ & _ & Hrec & _).
    destruct (d_status data) as [s|]; [destruct (truthy s)|]; cbn;
      rewrite Hst; exact Hrec. }
  repeat (match goal with
          | |- context [String.eqb event ?name] =>
              destruct (String.eqb event name) eqn:?
          end); try (by right); try (by left);
    try (right; rewrite withStoreTry_appendTaskLog; by case_bool_decide).
  exfalso. apply Hne. by apply String.eqb_eq.
Qed.

(** X3. The handler never changes which action the store shows: after any
    sequence of events [currentActionId] is what it was, so a
    subscription that is being ignored stays ignored, with no effect at
    all, until the page resets the store. *)
Theorem onEvents_keeps_current_action actionId events c :
  currentActionId (store (onEvents actionId events c))
  = currentActionId (store c)
  ∧ (otherAction (currentActionId (store c)) actionId = true →
     onEvents actionId events c = c).
Proof.
  unfold onEvents. split.
  - revert c. induction events as [|[[now event] data] events IH]; intros c;
      [done|].
    cbn [foldl]. rewrite IH. apply onEvent_currentActionId.
  - revert c. induction events as [|[[now event] data] events IH]; intros c Hc;
      [done|].
    cbn [foldl]. assert (onEvent actionId now event data c = c) as ->.
    { unfold onEvent. by rewrite Hc. }
    by apply IH.
Qed.

(** X4. Log lines accumulate in arrival order: after any sequence of
    events on a subscription the store is not ignoring, a task's log list
    is its old list followed by the lines of the sequence's [log.append]
    and [code.log] events for that task, in order; no other event adds,
    removes or reorders a line.  The exception is a task whose identifier
    names a member of [Object.prototype] and that has no list yet: every
    line for it is lost and it never gets a list. *)
Theorem onEvents_logs actionId events c taskId :
  otherAction (currentActionId (store c)) actionId = false →
  (¬ readsInherited (taskLogs (store c)) taskId →
   default [] (taskLogs (store (onEvents actionId events c)) !! taskId)
   = default [] (taskLogs (store c) !! taskId) ++ logLinesFor taskId events)
  ∧ (readsInherited (taskLogs (store c)) taskId →
     taskLogs (store (onEvents actionId events c)) !! taskId = None).
Proof.
  unfold onEvents, logLinesFor.
  revert c. induction events as [|[[now event] data] events IH]; intros c Hc.
  { cbn. split; [by rewrite app_nil_r|by intros [? _]]. }
  cbn [foldl omap list_omap].
  destruct (IH (onEvent actionId now event data c)) as [IHown IHinh].
  { by rewrite onEvent_currentActionId. }
  pose proof (onEvent_taskLogs_lookup actionId now event data c taskId Hc)
    as Hstep.
  split.
  - intros Hk. rewrite bool_decide_eq_true_2, andb_true_r in Hstep by done.
    rewrite IHown.
    2:{ intros [Hnone Hproto]. rewrite Hstep in Hnone.
        destruct (_ && _); [by destruct (default _ _)|].
        by apply Hk. }
    rewrite Hstep.
    destruct (String.eqb event "log.append" || String.eqb event "code.log");
      cbn [andb]; [|done].
    destruct (String.eqb (d_task_id data) taskId); [|done].
    cbn. by rewrite <- (assoc_L (++)).
  - intros Hk. rewrite bool_decide_eq_false_2, andb_false_r in Hstep
      by (intros Hn; by apply Hn).
    apply IHinh. split; [|apply Hk]. rewrite Hstep. apply Hk.
Qed.

Lemma onEvents_logs_witness :
  default [] (taskLogs (store (onEvents "a1"
     [("t0", "log.append", dataFor "t1"); ("t1", "ping", dataFor "t1");
      ("t2", "code.log", dataFor "t1"); ("t3", "log.append", dataFor "t2")]
     (clientShowing "a1"))) !! "t1")
  = default [] (taskLogs (store (clientShowing "a1")) !! "t1")
    ++ logLinesFor "t1"
         [("t0", "log.append", dataFor "t1"); ("t1", "ping", dataFor "t1");
          ("t2", "code.log", dataFor "t1"); ("t3", "log.append", dataFor "t2")].
Proof.
  destruct (onEvents_logs "a1"
     [("t0", "log.append", dataFor "t1"); ("t1", "ping", dataFor "t1");
      ("t2", "code.log", dataFor "t1"); ("t3", "log.append", dataFor "t2")]
     (clientShowing "a1") "t1") as [Hlogs _]; [reflexivity|].
  apply Hlogs. intros [_ Hproto]. vm_compute in Hproto.
  repeat (apply elem_of_cons in Hproto as [?|Hproto]; [discriminate|]).
  by apply elem_of_nil in Hproto.
Defined.

(** Lines sent for the task "toString" never show up. *)
Example onEvents_logs_lost :
  taskLogs (store (onEvents "a1"
     [("t0", "log.append", dataFor "toString");
      ("t1", "code.log", dataFor "toString")]
     (clientShowing "a1"))) !! "toString" = None.
Proof. vm_compute. reflexivity. Qed.

(** X5. An event whose name is not a case of the switch ([ping],
    [task.retrying], any unknown name) changes neither the store nor the
    queries to refetch; it only resets the error counter, and only when
    the subscription is not being ignored. *)
Theorem onEvent_unhandled actionId now event data c :
  event ∉ handledEvents →
  store (onEvent actionId now event data c) = store c
  ∧ invalidated (onEvent actionId now event data c) = invalidated c
  ∧ errorCount (onEvent actionId now event data c)
    = if otherAction (currentActionId (store c)) actionId
      then errorCount c else 0.
Proof.
  intros Hnot. unfold handledEvents in Hnot.
  repeat (apply not_elem_of_cons in Hnot as [?%String.eqb_neq Hnot]).
  unfold onEvent. destruct (otherAction _ _); [done|].
  repeat match goal with
         | H : String.eqb event _ = false |- _ => rewrite H; clear H
         end.
  done.
Qed.

Lemma onEvent_unhandled_witness :
  store (onEvent "a1" "now" "ping" (dataFor "t1") (clientShowing "a1"))
  = store (clientShowing "a1").
Proof.
  apply (onEvent_unhandled "a1" "now" "ping" (dataFor "t1") (clientShowing "a1")).
  unfold handledEvents. rewrite !not_elem_of_cons.
  split_and!; try done. apply not_elem_of_nil.
Defined.

(** ** Through the SSE client *)

Lemma sseDeliver_cases handler type parsed c :
  sseDeliver handler type parsed c = c
  ∨ ∃ data, parsed = Some data ∧ type ∈ eventTypes
            ∧ sseDeliver handler type parsed c = handler type data c.
Proof.
  destruct (decide (type ∈ eventTypes)) as [Hin|Hnot].
  - destruct parsed as [data|].
    + right. exists data. split_and!; [done|done|].
      by apply sseDeliver_registered.
    + left. unfold sseDeliver. generalize eventTypes. intros l. revert c.
      induction l as [|r l IH]; intros c; [done|]. cbn [foldl].
      destruct (String.eqb r type); apply IH.
  - left. by apply sseDeliver_unregistered.
Qed.

(** X6. Whatever arrives on the stream, the client never records a
    recovery attempt: starting from a store without one (as after
    [resetForAction]), [recoveryAttempt] is still [null] after any
    sequence of deliveries, and the header's "Recovering" badge is never
    shown. *)
Theorem sse_never_sets_recoveryAttempt actionId arrivals c :
  recoveryAttempt (store c) = None →
  recoveryAttempt (store (sseDeliverAll actionId arrivals c)) = None
  ∧ ∀ action,
      headerIsRecovering (store (sseDeliverAll actionId arrivals c)) action
      = false.
Proof.
  intros Hc.
  assert (H : recoveryAttempt (store (sseDeliverAll actionId arrivals c)) = None).
  { unfold sseDeliverAll. revert c Hc.
    induction arrivals as [|a arrivals IH]; intros c Hc; [done|].
    cbn [foldl]. apply IH.
    destruct (sseDeliver_cases (onEvent actionId (a_now a)) (a_event a)
                (a_parsed a) c) as [->|(data & _ & Hin & ->)]; [done|].
    destruct (onEvent_recoveryAttempt actionId (a_now a) (a_event a) data c)
      as [H|H]; [|done|congruence].
    intros Heq. rewrite Heq in Hin. unfold eventTypes in Hin.
    repeat (apply elem_of_cons in Hin as [Hin|Hin]; [discriminate|]).
    by apply elem_of_nil in Hin. }
  split; [done|]. intros action. unfold headerIsRecovering. rewrite H.
  apply andb_false_r.
Qed.

Lemma sse_never_sets_recoveryAttempt_witness :
  recoveryAttempt
    (store (sseDeliverAll "a1"
              [mkArrival "t0" "action.started" (Some (dataFor "t1"));
               mkArrival "t1" "action.retrying" (Some (dataFor "t1"))]
              (clientShowing "a1"))) = None.
Proof.
  apply (sse_never_sets_recoveryAttempt "a1"
           [mkArrival "t0" "action.started" (Some (dataFor "t1"));
            mkArrival "t1" "action.retrying" (Some (dataFor "t1"))]
           (clientShowing "a1")).
  reflexivity.
Defined.

(** ** The header after action events *)

Lemma onEvent_action_terminal actionId now event data c :
  otherAction (currentActionId (store c)) actionId = false →
  event = "action.completed" ∨ event = "action.failed" →
  actionStatus (store (onEvent actionId now event data c))
  = Some (if String.eqb event "action.completed"
          then "completed" else "failed")
  ∧ recoveryAttempt (store (onEvent actionId now event data c)) = None.
Proof.
  intros Hc [-> | ->]; unfold onEvent; rewrite Hc; done.
Qed.

(** X7. After an [action.completed] or [action.failed] event the header
    shows that status whatever the fetched action says, shows no
    "Recovering" badge, and the Run button is enabled exactly when no run
    request is pending and some task of the fetched action is pending;
    after [action.started] the Run button is disabled. *)
Theorem header_after_action_events actionId now data c action :
  otherAction (currentActionId (store c)) actionId = false →
  (∀ event, event = "action.completed" ∨ event = "action.failed" →
     let st := store (onEvent actionId now event data c) in
     headerStatus st action
       = (if String.eqb event "action.completed" then "completed" else "failed")
     ∧ headerIsRecovering st action = false
     ∧ ∀ isPending,
         runDisabled isPending st action
         = isPending || negb (hasPendingTasks action))
  ∧ (let st := store (onEvent actionId now "action.started" data c) in
     headerStatus st action = "running"
     ∧ ∀ isPending, runDisabled isPending st action = true).
Proof.
  intros Hc. split.
  - intros event Hev. cbn zeta.
    destruct (onEvent_action_terminal actionId now event data c Hc Hev)
      as [Hst Hrec].
    unfold runDisabled, headerIsRecovering, headerIsRunning, headerStatus.
    rewrite Hst, Hrec.
    destruct Hev as [-> | ->]; cbn; split_and!; try done;
      intros []; done.
  - cbn zeta. unfold onEvent. rewrite Hc. cbn.
    unfold runDisabled, headerIsRunning, headerStatus. cbn.
    split; [done|]. intros []; done.
Qed.

Lemma header_after_action_events_witness :
  headerStatus
    (store (onEvent "a1" "now" "action.failed" (dataFor "t1")
              (clientShowing "a1")))
    (mkAction "a1" "title" "prompt" "running" diamond 0) = "failed".
Proof.
  apply (header_after_action_events "a1" "now" (dataFor "t1")
           (clientShowing "a1")
           (mkAction "a1" "title" "prompt" "running" diamond 0)
           eq_refl).
  right. reflexivity.
Defined.

(** ** The error counter of the hook *)

Lemma hookRun_cons actionId h s signals :
  hookRun actionId h (s :: signals)
  = hookRun actionId (hookStep actionId h s) signals.
Proof. done. Qed.

Lemma hookRun_app actionId h signals1 signals2 :
  hookRun actionId h (signals1 ++ signals2)
  = hookRun actionId (hookRun actionId h signals1) signals2.
Proof. apply foldl_app. Qed.

Lemma hookRun_closed actionId h signals :
  h_open h = false → hookRun actionId h signals = h.
Proof.
  intros Hh. induction signals as [|s signals IH]; [done|].
  rewrite hookRun_cons. unfold hookStep. by rewrite Hh.
Qed.

Lemma hookRun_errors actionId h k :
  h_open h = true → errorCount (h_client h) < 3 →
  h_open (hookRun actionId h (replicate k SourceError))
  = bool_decide (errorCount (h_client h) + k < 3)
  ∧ (errorCount (h_client h) + k < 3 →
     errorCount (h_client (hookRun actionId h (replicate k SourceError)))
     = errorCount (h_client h) + k
     ∧ store (h_client (hookRun actionId h (replicate k SourceError)))
       = store (h_client h)).
Proof.
  revert h. induction k as [|k IH]; intros h Hh He.
  { cbn. rewrite Nat.add_0_r. split; [|done].
    rewrite Hh. symmetry. by apply bool_decide_eq_true_2. }
  cbn [replicate]. rewrite hookRun_cons.
  unfold hookStep. rewrite Hh.
  destruct (decide (3 ≤ S (errorCount (h_client h)))) as [Hge|Hlt].
  - rewrite hookRun_closed.
    2:{ unfold onError. cbn. by rewrite bool_decide_eq_true_2. }
    split; [|lia]. unfold onError; cbn.
    rewrite bool_decide_eq_true_2 by done. symmetry.
    apply bool_decide_eq_false_2. lia.
  - destruct (IH (onError h)) as [Hopen Hcount].
    { unfold onError; cbn. by rewrite bool_decide_eq_false_2. }
    { unfold onError; cbn. lia. }
    unfold onError in Hopen, Hcount |- *; cbn in Hopen, Hcount |- *.
    split.
    + rewrite Hopen. apply bool_decide_ext. lia.
    + intros Hlt'. destruct Hcount as [-> ->]; [lia|]. split; [lia|done].
Qed.

Lemma onEvent_errorCount actionId now event data c :
  otherAction (currentActionId (store c)) actionId = false →
  errorCount (onEvent actionId now event data c) = 0.
Proof.
  intros Hc. unfold onEvent. rewrite Hc.
  destruct (String.eqb event "snapshot").
  { destruct (snapshot_loop_store (d_tasks data)
                (mkClient (store c) 0 (invalidated c))) as (_ & Hcnt & _).
    cbn zeta in Hcnt.
    destruct (d_status data) as [s|]; [destruct (truthy s)|];
      cbn [errorCount withStore]; exact Hcnt. }
  repeat (match goal with
          | |- context [String.eqb event ?name] =>
              destruct (String.eqb event name)
          end); try reflexivity;
    rewrite withStoreTry_appendTaskLog; by case_bool_decide.
Qed.

(** X8. The hook gives up at the third error in a row: from a fresh
    counter, [k1] errors, then an event that reaches the handler on a
    subscription that is not ignored, then [k2] errors leave the source
    open exactly when both runs are shorter than three; once the source
    is closed nothing changes the hook any more. *)
Theorem hook_closes_at_third_error actionId h k1 a data k2 :
  h_open h = true → errorCount (h_client h) = 0 →
  otherAction (currentActionId (store (h_client h))) actionId = false →
  a_event a ∈ eventTypes → a_parsed a = Some data →
  h_open (hookRun actionId h
            (replicate k1 SourceError ++ [SourceEvent a]
             ++ replicate k2 SourceError))
  = bool_decide (k1 < 3) && bool_decide (k2 < 3)
  ∧ ∀ h' signals, h_open h' = false → hookRun actionId h' signals = h'.
Proof.
  intros Hopen Hzero Hshown Hreg Hparsed. split; [|apply hookRun_closed].
  rewrite !hookRun_app.
  destruct (hookRun_errors actionId h k1 Hopen) as [Ho1 Hc1]; [lia|].
  rewrite Hzero in Ho1, Hc1. cbn [Nat.add] in Ho1, Hc1.
  set (h1 := hookRun actionId h (replicate k1 SourceError)) in *.
  destruct (decide (k1 < 3)) as [Hk1|Hk1].
  2:{ rewrite bool_decide_eq_false_2 in Ho1 by done.
      rewrite !hookRun_closed by (by rewrite ?hookRun_closed).
      rewrite Ho1. by rewrite (bool_decide_eq_false_2 (k1 < 3)). }
  rewrite bool_decide_eq_true_2 in Ho1 by done.
  rewrite (bool_decide_eq_true_2 (k1 < 3)) by done. cbn [andb].
  destruct (Hc1 Hk1) as [_ Hstore].
  rewrite (hookRun_cons _ _ _ []). unfold hookStep at 1. rewrite Ho1.
  change (hookRun actionId ?x []) with x.
  set (h2 := mkHook _ _).
  assert (Hcount2 : errorCount (h_client h2) = 0).
  { unfold h2. cbn [h_client]. rewrite Hparsed, sseDeliver_registered by done.
    apply onEvent_errorCount. by rewrite Hstore. }
  destruct (hookRun_errors actionId h2 k2) as [Ho2 _]; [done|lia|].
  rewrite Ho2, Hcount2. done.
Qed.

Lemma hook_closes_at_third_error_witness :
  h_open (hookRun "a1" (mkHook (clientShowing "a1") true)
            (replicate 2 SourceError
             ++ [SourceEvent (mkArrival "now" "ping" (Some (dataFor "t1")))]
             ++ replicate 2 SourceError))
  = bool_decide (2 < 3) && bool_decide (2 < 3).
Proof.
  apply (hook_closes_at_third_error "a1" (mkHook (clientShowing "a1") true) 2
           (mkArrival "now" "ping" (Some (dataFor "t1"))) (dataFor "t1") 2);
    try reflexivity.
  unfold eventTypes. cbn. set_solver.
Defined.

(** ** Snapshots *)

Lemma snapshot_store actionId now data c :
  otherAction (currentActionId (store c)) actionId = false →
  store (onEvent actionId now "snapshot" data c)
  = let st := foldl (λ st t, setTaskOverride (id t) (snapshotOverride t) st)
                    (store c) (d_tasks data) in
    match d_status data with
    | Some s => if truthy s then setActionStatus s st else st
    | None => st
    end.
Proof.
  intros Hc. unfold onEvent. rewrite Hc.
  change (String.eqb "snapshot" "snapshot") with true. cbn iota.
  destruct (snapshot_loop_store (d_tasks data)
              (mkClient (store c) 0 (invalidated c))) as (Hst & _).
  cbn zeta in Hst. change (store (mkClient (store c) 0 (invalidated c)))
    with (store c) in Hst.
  cbn zeta.
  destruct (d_status data) as [s|]; [destruct (truthy s)|];
    cbn [withStore store]; rewrite Hst; done.
Qed.

(** X9. When a snapshot lists several tasks under one identifier, the
    last of them decides: the overlay ends with the status and output
    summary of the last task of the payload carrying that identifier. *)
Theorem snapshot_last_wins actionId now data c before t after :
  otherAction (currentActionId (store c)) actionId = false →
  d_tasks data = before ++ t :: after →
  id t ∉ id <$> after →
  let st := store (onEvent actionId now "snapshot" data c) in
  overlayField st (id t) "status" = Some (JStr (status t))
  ∧ overlayField st (id t) "output_summary"
    = Some (js_of_nullable (output_summary t)).
Proof.
  intros Hc Htasks Hlast. cbn zeta.
  rewrite (snapshot_store actionId now data c Hc). cbn zeta.
  assert (Hov : ∀ st' field,
    overlayField
      (match d_status data with
       | Some s => if truthy s then setActionStatus s st' else st'
       | None => st'
       end) (id t) field = overlayField st' (id t) field).
  { intros st' field. destruct (d_status data) as [s|];
      [destruct (truthy s)|]; done. }
  rewrite !Hov. unfold overlayField.
  rewrite Htasks, foldl_app. cbn [foldl].
  rewrite snapshot_loop_other by done.
  split; by apply overlayField_setTaskOverride_new.
Qed.

Lemma snapshot_last_wins_witness :
  overlayField
    (store (onEvent "a1" "now" "snapshot"
              (snapshotOf [sampleTask "T1" [];
                           mkTask "T1" "a1" "again" "completed" "general"
                                  None [] (Some "done") "" ""] None)
              (clientShowing "a1")))
    "T1" "status" = Some (JStr "completed").
Proof.
  apply (snapshot_last_wins "a1" "now"
           (snapshotOf [sampleTask "T1" [];
                        mkTask "T1" "a1" "again" "completed" "general"
                               None [] (Some "done") "" ""] None)
           (clientShowing "a1") [sampleTask "T1" []]
           (mkTask "T1" "a1" "again" "completed" "general"
                   None [] (Some "done") "" "") []);
    [reflexivity|reflexivity|apply not_elem_of_nil].
Defined.

Lemma setTaskOverride_absorbed taskId override st entry :
  taskOverrides st !! taskId = Some entry → override ⊆ entry →
  setTaskOverride taskId override st = st.
Proof.
  intros Hentry Hsub. destruct st as [cur ovs act rec logs code].
  unfold setTaskOverride; cbn in *. f_equal.
  rewrite Hentry. cbn. rewrite (map_subseteq_union _ _ Hsub).
  by apply insert_id.
Qed.

Lemma snapshot_loop_absorbed tasks st :
  (∀ t, t ∈ tasks → ∃ entry, taskOverrides st !! id t = Some entry
                              ∧ snapshotOverride t ⊆ entry) →
  foldl (λ st t, setTaskOverride (id t) (snapshotOverride t) st) st tasks = st.
Proof.
  induction tasks as [|t tasks IH]; intros Hall; [done|].
  cbn [foldl]. destruct (Hall t) as (entry & Hentry & Hsub);
    [apply elem_of_cons; auto|].
  rewrite (setTaskOverride_absorbed _ _ _ _ Hentry Hsub).
  apply IH. intros t' Ht'. apply Hall, elem_of_cons. auto.
Qed.

(** X10. Receiving the same snapshot again (as after a reconnect) changes
    nothing in the store: with distinct task identifiers in the payload,
    handling it twice leaves the store as handling it once. *)
Theorem snapshot_idempotent actionId now now' data c :
  otherAction (currentActionId (store c)) actionId = false →
  NoDup (id <$> d_tasks data) →
  store (onEvent actionId now' "snapshot" data
           (onEvent actionId now "snapshot" data c))
  = store (onEvent actionId now "snapshot" data c).
Proof.
  intros Hc Hnd.
  set (c1 := onEvent actionId now "snapshot" data c).
  assert (Hc1 : otherAction (currentActionId (store c1)) actionId = false).
  { unfold c1. by rewrite onEvent_currentActionId. }
  rewrite (snapshot_store actionId now' data c1 Hc1). cbn zeta.
  pose proof (snapshot_store actionId now data c Hc) as H1.
  fold c1 in H1. cbn zeta in H1.
  set (loop := foldl (λ st t, setTaskOverride (id t) (snapshotOverride t) st))
    in *.
  assert (Hloop : loop (store c1) (d_tasks data) = store c1).
  { apply snapshot_loop_absorbed. intros t Ht.
    destruct (snapshot_loop_task (d_tasks data) (store c) t Hnd Ht)
      as [Hs Ho].
    assert (Hov : taskOverrides (store c1)
                  = taskOverrides (loop (store c) (d_tasks data))).
    { rewrite H1. destruct (d_status data) as [s|];
        [destruct (truthy s)|]; done. }
    unfold overlayField in Hs, Ho. fold loop in Hs, Ho.
    rewrite <- Hov in Hs, Ho.
    destruct (taskOverrides (store c1) !! id t) as [entry|] eqn:Hentry;
      [|done].
    exists entry. split; [done|]. cbn in Hs, Ho.
    unfold snapshotOverride. apply map_subseteq_spec. intros k v Hk.
    apply lookup_insert_Some in Hk as [[<- <-]|[Hne Hk]]; [done|].
    apply lookup_singleton_Some in Hk as [<- <-]. done. }
  rewrite Hloop.
  destruct (d_status data) as [s|]; [destruct (truthy s)|]; try done.
  rewrite H1. done.
Qed.

Lemma snapshot_idempotent_witness :
  store (onEvent "a1" "later" "snapshot" (snapshotOf diamond (Some "running"))
           (onEvent "a1" "now" "snapshot" (snapshotOf diamond (Some "running"))
              (clientShowing "a1")))
  = store (onEvent "a1" "now" "snapshot" (snapshotOf diamond (Some "running"))
             (clientShowing "a1")).
Proof.
  apply snapshot_idempotent; [reflexivity|].
  cbn. repeat constructor; set_solver.
Defined.

(** ** The task card after task events *)

Lemma otherAction_false_inv currentId actionId :
  otherAction currentId actionId = false →
  currentId = "" ∨ currentId = actionId.
Proof.
  unfold otherAction, truthy. intros [H|H]%andb_false_iff.
  - left. by apply String.eqb_eq, negb_false_iff.
  - right. by apply String.eqb_eq, negb_false_iff.
Qed.

(** X11. [task.started] only touches the status: the output summary the
    overlay held for the task before (from an earlier completion or
    snapshot) is still there, but the card, now "running", shows no
    output section and no error box, and its Edit button is disabled. *)
Theorem task_started_keeps_summary actionId now data c task :
  otherAction (currentActionId (store c)) actionId = false →
  id task = d_task_id data →
  let st := store (onEvent actionId now "task.started" data c) in
  overlayField st (id task) "output_summary"
    = overlayField (store c) (id task) "output_summary"
  ∧ cardStatus task st = JStr "running"
  ∧ editDisabled task st = true
  ∧ cardHasOutput task st = false
  ∧ cardErrorOutput task st = None.
Proof.
  intros Hc Hid. cbn zeta.
  rewrite onEvent_task_started by (by apply otherAction_false_inv).
  cbn [store withStore]. rewrite <- Hid.
  assert (Hstatus : cardStatus task
            (setTaskOverride (id task) {[ "status" := JStr "running" ]} (store c))
          = JStr "running").
  { unfold cardStatus.
    by rewrite (overlayField_setTaskOverride_new _ "status" (JStr "running")). }
  split_and!.
  - by apply overlayField_setTaskOverride_old.
  - done.
  - unfold editDisabled. by rewrite Hstatus.
  - unfold cardHasOutput. rewrite Hstatus. apply andb_false_r.
  - unfold cardErrorOutput. rewrite Hstatus. cbn.
    by rewrite andb_false_r.
Qed.

Lemma task_started_keeps_summary_witness :
  overlayField
    (store (onEvent "a1" "later" "task.started" (dataFor "t1")
              (onEvent "a1" "now" "task.completed" (dataFor "t1")
                 (clientShowing "a1"))))
    "t1" "output_summary"
  = overlayField
      (store (onEvent "a1" "now" "task.completed" (dataFor "t1")
                (clientShowing "a1")))
      "t1" "output_summary".
Proof.
  apply (task_started_keeps_summary "a1" "later" (dataFor "t1")
           (onEvent "a1" "now" "task.completed" (dataFor "t1")
              (clientShowing "a1"))
           (sampleTask "t1" []));
    reflexivity.
Defined.

(** X12. The card prefers the overlay's output summary unless it is
    absent or null: an empty summary in the overlay hides the summary of
    the fetched task.  So after [task.failed] with an empty error the
    card shows no error box even if the fetched task has a summary, while
    an overlay entry without a summary, or with a null one, lets the
    fetched task's summary through. *)
Theorem card_summary_fallback actionId now data c task :
  otherAction (currentActionId (store c)) actionId = false →
  id task = d_task_id data →
  (d_error data = "" →
   let st := store (onEvent actionId now "task.failed" data c) in
   cardOutputSummary task st = JStr ""
   ∧ cardErrorOutput task st = None)
  ∧ (∀ st, overlayField st (id task) "output_summary" = None
           ∨ overlayField st (id task) "output_summary" = Some JNull →
       cardOutputSummary task st = js_of_nullable (output_summary task)).
Proof.
  intros Hc Hid. split.
  - intros Herr. cbn zeta.
    rewrite onEvent_task_failed by (by apply otherAction_false_inv).
    cbn [store withStore]. rewrite <- Hid, Herr.
    assert (Hos : cardOutputSummary task
              (setTaskOverride (id task)
                 {[ "status" := JStr "failed"; "output_summary" := JStr "" ]}
                 (store c)) = JStr "").
    { unfold cardOutputSummary.
      by rewrite (overlayField_setTaskOverride_new _ "output_summary"
                    (JStr "")). }
    split; [done|]. unfold cardErrorOutput. rewrite Hos. cbn.
    by destruct (cardStatus _ _).
  - intros st [H|H]; unfold cardOutputSummary; by rewrite H.
Qed.

Lemma card_summary_fallback_witness :
  cardErrorOutput
    (mkTask "t1" "a1" "p" "failed" "general" None [] (Some "old error") "" "")
    (store (onEvent "a1" "now" "task.failed"
              (mkData [] None "t1" "" "" "" "" 0 None "" "")
              (clientShowing "a1"))) = None.
Proof.
  apply (card_summary_fallback "a1" "now"
           (mkData [] None "t1" "" "" "" "" 0 None "" "")
           (clientShowing "a1")
           (mkTask "t1" "a1" "p" "failed" "general" None []
                   (Some "old error") "" ""));
    reflexivity.
Defined.

(** X13. The dependency chips of a card are tasks of the board that the
    card's task lists as dependencies, in board order: a listed
    identifier with no task gets no chip, every listed identifier that is
    a task gets one, and with distinct task identifiers no identifier
    gets two. *)
Theorem depTasks_shown task allTasks :
  (∀ t, t ∈ depTasks task allTasks ↔ t ∈ allTasks ∧ id t ∈ dependencies task)
  ∧ (∀ d, d ∈ id <$> depTasks task allTasks
          ↔ d ∈ dependencies task ∧ d ∈ id <$> allTasks)
  ∧ depTasks task allTasks `sublist_of` allTasks
  ∧ (NoDup (id <$> allTasks) → NoDup (id <$> depTasks task allTasks)).
Proof.
  unfold depTasks. split_and!.
  - intros t. rewrite list_elem_of_filter. tauto.
  - intros d. rewrite !list_elem_of_fmap. split.
    + intros (t & -> & [Hd Ht]%list_elem_of_filter). eauto.
    + intros (Hd & t & -> & Ht). exists t. split; [done|].
      by apply list_elem_of_filter.
  - apply sublist_filter.
  - intros Hnd. eapply sublist_NoDup; [exact Hnd|].
    apply fmap_sublist, sublist_filter.
Qed.

(** ** The logs drawer *)


(** ** Selections *)

Lemma toggle_is_toggleDep selected i : toggle selected i = toggleDep selected i.
Proof. done. Qed.

Lemma filter_ne_length (l : list string) (x : string) :
  NoDup l → x ∈ l → S (length (filter (λ i, i ≠ x) l)) = length l.
Proof.
  induction 1 as [|y l Hy Hnd IH]; intros Hx; [by apply elem_of_nil in Hx|].
  apply elem_of_cons in Hx as [->|Hx].
  - rewrite filter_cons_False by (by intros ?). cbn. f_equal.
    clear IH Hnd. induction l as [|z l IH]; [done|].
    apply not_elem_of_cons in Hy as [Hne Hy].
    rewrite filter_cons_True by done. cbn. by rewrite IH.
  - rewrite filter_cons_True by (intros ->; done). cbn. by rewrite IH.
Qed.

(** X15. Toggling keeps a selection free of duplicates and changes its
    size by exactly one: one less when the identifier was selected, one
    more when it was not; the other identifiers keep their relative
    order.  This holds for the dependency checkboxes of both task dialogs
    and for the tool checkboxes, which use the same function. *)
Theorem toggle_NoDup selected i :
  NoDup selected →
  NoDup (toggleDep selected i)
  ∧ (i ∈ selected → S (length (toggleDep selected i)) = length selected)
  ∧ (i ∉ selected → length (toggleDep selected i) = S (length selected))
  ∧ filter (λ s, s ≠ i) (toggleDep selected i) = filter (λ s, s ≠ i) selected
  ∧ toggle selected i = toggleDep selected i.
Proof.
  intros Hnd. destruct (decide (i ∈ selected)) as [Hin|Hnot].
  - rewrite toggleDep_present by done. split_and!.
    + by apply NoDup_filter.
    + intros _. by apply filter_ne_length.
    + done.
    + apply list_filter_filter_l. tauto.
    + by rewrite toggle_is_toggleDep, toggleDep_present.
  - rewrite toggleDep_absent by done. split_and!.
    + apply NoDup_app. split_and!; [done| |apply NoDup_singleton].
      intros x Hx ->%list_elem_of_singleton. done.
    + done.
    + intros _. rewrite length_app. cbn. lia.
    + rewrite filter_app. rewrite filter_cons_False by (by intros ?).
      by rewrite filter_nil, app_nil_r.
    + by rewrite toggle_is_toggleDep, toggleDep_absent.
Qed.

Lemma toggle_NoDup_witness :
  S (length (toggleDep ["T1"; "T2"; "T3"] "T2")) = length ["T1"; "T2"; "T3"].
Proof.
  apply (toggle_NoDup ["T1"; "T2"; "T3"] "T2").
  - repeat constructor; set_solver.
  - set_solver.
Defined.

(** X16. The task editor never makes a task depend on itself: the
    checkboxes only offer the other tasks, so whatever is clicked, the
    task's own identifier is in the selection at the end exactly when it
    was among the task's dependencies to begin with. *)
Theorem editor_never_selects_self task allTasks clicks :
  Forall (λ i, i ∈ id <$> availableDeps task allTasks) clicks →
  id task ∈ foldl toggleDep (dependencies task) clicks
  ↔ id task ∈ dependencies task.
Proof.
  generalize (dependencies task) as selected.
  induction clicks as [|i clicks IH]; intros selected Hclicks; [done|].
  apply Forall_cons in Hclicks as [Hi Hclicks].
  cbn [foldl]. rewrite IH by done. rewrite toggleDep_elem.
  assert (id task ≠ i).
  { intros <-. apply list_elem_of_fmap in Hi as (t & Heq & Ht).
    unfold availableDeps in Ht. apply list_elem_of_filter in Ht as [Hne _].
    congruence. }
  tauto.
Qed.

Lemma editor_never_selects_self_witness :
  "T4" ∈ foldl toggleDep ["T2"; "T3"] ["T1"; "T2"; "T1"] ↔ "T4" ∈ ["T2"; "T3"].
Proof.
  apply (editor_never_selects_self (sampleTask "T4" ["T2"; "T3"]) diamond
           ["T1"; "T2"; "T1"]).
  unfold availableDeps, diamond. cbn.
  repeat (apply Forall_cons; split; [set_solver|]). apply Forall_nil_2.
Defined.

(** X17. A tool that is unavailable under WSL2 ("win32com") cannot be
    switched through the selector: whatever checkboxes change, it is
    selected at the end exactly when it was at the start, while any other
    tool's checkbox toggles it. *)
Theorem unavailable_tool_never_toggled selected clicks :
  ("win32com" ∈ foldl toolCheckboxChange selected clicks
   ↔ "win32com" ∈ selected)
  ∧ ∀ toolId, toolId ≠ "win32com" →
      (toolId ∈ toolCheckboxChange selected toolId ↔ toolId ∉ selected).
Proof.
  split.
  - revert selected. induction clicks as [|i clicks IH]; intros selected;
      [done|].
    cbn [foldl]. rewrite IH. unfold toolCheckboxChange, WSL2_UNAVAILABLE.
    case_bool_decide as Hi; [done|].
    rewrite toggle_is_toggleDep, toggleDep_elem.
    assert ("win32com" ≠ i) by (intros <-; apply Hi; set_solver).
    tauto.
  - intros toolId Hne. unfold toolCheckboxChange, WSL2_UNAVAILABLE.
    rewrite bool_decide_eq_false_2 by set_solver.
    rewrite toggle_is_toggleDep, toggleDep_elem. tauto.
Qed.

(** ** [computeTiers] on arbitrary task lists *)

Section getTier_sound.
Context (tm : gmap string Task).

Lemma mapTiers_sound f ds vs tierOf tierOf' :
  (∀ d v m m', d ∈ ds → memo_ok tm m → f d m = Some (v, m') →
     memo_ok tm m' ∧ grows m m' ∧ ∃ k, tierDirect tm k d = Some v) →
  memo_ok tm tierOf → mapTiers f ds tierOf = Some (vs, tierOf') →
  memo_ok tm tierOf' ∧ grows tierOf tierOf'
  ∧ ∃ k, mapM (tierDirect tm k) ds = Some vs.
Proof.
  revert vs tierOf tierOf'.
  induction ds as [|d ds IH]; intros vs tierOf tierOf' Hf Hok Hmap.
  { cbn in Hmap. injection Hmap as <- <-.
    split_and!; [done|by intros ?|by exists 0]. }
  cbn [mapTiers] in Hmap.
  destruct (f d tierOf) as [[v m1]|] eqn:Hd; [|done].
  destruct (mapTiers f ds m1) as [[vs' m2]|] eqn:Hds; [|done].
  injection Hmap as <- <-.
  destruct (Hf d v tierOf m1) as (Hok1 & Hg1 & k1 & Hk1);
    [apply elem_of_cons; auto|done|done|].
  destruct (IH vs' m1 m2) as (Hok2 & Hg2 & k2 & Hk2); [|done|done|].
  { intros d' v' m m' Hin. apply Hf. apply elem_of_cons; auto. }
  split_and!; [done|by eapply grows_trans|].
  exists (k1 `max` k2). apply mapM_Some. constructor.
  - eapply tierDirect_mono; [done|lia].
  - apply mapM_Some in Hk2. eapply Forall2_impl; [done|].
    intros d' w Hd'. eapply tierDirect_mono; [exact Hd'|lia].
Qed.

Lemma getTier_sound n i v tierOf tierOf' :
  memo_ok tm tierOf → getTier tm n i tierOf = Some (v, tierOf') →
  memo_ok tm tierOf' ∧ grows tierOf tierOf' ∧ tierOf' !! i = Some v
  ∧ ∃ k, tierDirect tm k i = Some v.
Proof.
  revert i v tierOf tierOf'.
  induction n as [|n IH]; intros i v tierOf tierOf' Hok Hget; [done|].
  cbn [getTier] in Hget.
  destruct (tierOf !! i) as [w|] eqn:Hmemo.
  { injection Hget as <- <-. split_and!; [done|by intros ?|done|].
    by apply Hok. }
  destruct (tm !! i) as [task|] eqn:Htask.
  2:{ injection Hget as <- <-.
      assert (tierDirect tm 1 i = Some (Num 0)) by (cbn; by rewrite Htask).
      split_and!; [by eapply memo_ok_insert|apply grows_insert
                  |apply lookup_insert_eq|eauto]. }
  case_bool_decide as Hdeps.
  { injection Hget as <- <-.
    assert (tierDirect tm 1 i = Some (Num 0)).
    { cbn. rewrite Htask. by rewrite bool_decide_eq_true_2. }
    split_and!; [by eapply memo_ok_insert|apply grows_insert
                |apply lookup_insert_eq|eauto]. }
  destruct (mapTiers _ _ tierOf) as [[vs m1]|] eqn:Hmap; [|done].
  injection Hget as <- <-.
  destruct (mapTiers_sound _ _ _ _ _
              (λ d v m m' _ Hm Hg,
                 let '(conj a (conj b (conj _ c))) := IH d v m m' Hm Hg in
                 conj a (conj b c)) Hok Hmap)
    as (Hok1 & Hg1 & k & Hk).
  assert (tierDirect tm (S k) i = Some (js_succ (Math_max vs))).
  { cbn [tierDirect]. rewrite Htask, bool_decide_eq_false_2 by done.
    by rewrite Hk. }
  split_and!; [by eapply memo_ok_insert
              |eapply grows_trans; [done|apply grows_insert]
              |apply lookup_insert_eq|eauto].
Qed.

Lemma fillTiers_sound n ts tierOf tierOf' :
  memo_ok tm tierOf → fillTiers tm n ts tierOf = Some tierOf' →
  memo_ok tm tierOf' ∧ grows tierOf tierOf'
  ∧ ∀ t, t ∈ ts → is_Some (tierOf' !! id t).
Proof.
  revert tierOf. induction ts as [|t ts IH]; intros tierOf Hok Hfill.
  { cbn in Hfill. injection Hfill as <-.
    split_and!; [done|by intros ?|by intros ? ?%elem_of_nil]. }
  cbn [fillTiers] in Hfill.
  destruct (getTier tm n (id t) tierOf) as [[v m1]|] eqn:Hget; [|done].
  destruct (getTier_sound _ _ _ _ _ Hok Hget) as (Hok1 & Hg1 & Ht & _).
  destruct (IH m1 Hok1 Hfill) as (Hok2 & Hg2 & Hall).
  split_and!; [done|by eapply grows_trans|].
  intros t' [->|Ht']%elem_of_cons; [|by apply Hall].
  apply Hg2. rewrite Ht. eauto.
Qed.

End getTier_sound.

Lemma memo_ok_empty tm : memo_ok tm ∅.
Proof. intros k w Hk. by rewrite lookup_empty in Hk. Qed.

Lemma placeTask_Some tierOf tiers t tiers' :
  placeTask tierOf tiers t = Some tiers' →
  ∃ n, tierOrZero tierOf (id t) = Num n.
Proof.
  unfold placeTask. destruct (tierOrZero tierOf (id t)) as [|n]; [done|].
  eauto.
Qed.

Lemma placeTasks_sound tierOf tiers ts tiers' :
  placeTasks tierOf tiers ts = Some tiers' →
  mjoin tiers' ≡ₚ mjoin tiers ++ ts
  ∧ ∀ t, t ∈ ts → tierOrZero tierOf (id t) ≠ NegInfinity.
Proof.
  revert tiers. induction ts as [|t ts IH]; intros tiers Hplace.
  { cbn in Hplace. injection Hplace as <-.
    split; [by rewrite app_nil_r|by intros ? ?%elem_of_nil]. }
  cbn [placeTasks] in Hplace.
  destruct (placeTask tierOf tiers t) as [tiers1|] eqn:H1; [|done].
  destruct (placeTask_Some _ _ _ _ H1) as [n Hn].
  destruct (placeTask_ok tierOf tiers t n Hn) as (tiers1' & H1' & Hp1 & _).
  assert (tiers1' = tiers1) as -> by congruence.
  destruct (IH tiers1 Hplace) as [Hp2 Hall]. split.
  - rewrite Hp2, Hp1. cbn. apply Permutation_middle.
  - intros t' [->|Ht']%elem_of_cons; [by rewrite Hn|by apply Hall].
Qed.

(** X18. Whatever the task list (dangling or repeated identifiers
    included), when [computeTiers] returns, its tiers hold exactly the
    input tasks: none is dropped and none is shown twice. *)
Theorem computeTiers_keeps_tasks fuel tasks tiers :
  computeTiers fuel tasks = Returns tiers →
  concat tiers ≡ₚ tasks
  ∧ ∀ t, t ∈ tasks ↔ ∃ n, inTier tiers n t.
Proof.
  unfold computeTiers.
  destruct (fillTiers _ _ _ _) as [m|]; [|done].
  destruct (placeTasks m [] tasks) as [tiers'|] eqn:Hplace; [|done].
  intros [= <-]. destruct (placeTasks_sound _ _ _ _ Hplace) as [Hperm _].
  cbn in Hperm. split; [by rewrite concat_mjoin|].
  intros t. rewrite <- Hperm, list_elem_of_join. unfold inTier. split.
  - intros (tier & Ht & [n Hn]%list_elem_of_lookup_1). eauto.
  - intros (n & tier & Hn & Ht). exists tier. split; [done|].
    by eapply list_elem_of_lookup_2.
Qed.

Lemma computeTiers_keeps_tasks_witness :
  concat [ [sampleTask "T1" []];
           [sampleTask "T3" ["T1"]; sampleTask "T2" ["T1"]];
           [sampleTask "T4" ["T2"; "T3"]] ] ≡ₚ diamond.
Proof.
  apply (computeTiers_keeps_tasks 3 diamond).
  vm_compute. reflexivity.
Defined.

Lemma dependsOn_taskMap tasks x d :
  NoDup (id <$> tasks) → dependsOn tasks x d →
  ∃ t, mkTaskMap tasks !! x = Some t ∧ d ∈ dependencies t.
Proof.
  intros Hnd (t & Ht & <- & Hd). exists t. split; [|done].
  by apply mkTaskMap_lookup_NoDup.
Qed.

Lemma tc_loop_step {A} (R : relation A) x :
  tc R x x → ∃ y, R x y ∧ tc R y y.
Proof.
  intros Hx. inversion Hx as [? ? Hxx|? y ? Hxy Hyx]; subst.
  - exists x. split; [done|by apply tc_once].
  - exists y. split; [done|]. eapply tc_r; [exact Hyx|exact Hxy].
Qed.

Lemma tierDirect_on_cycle tasks n x :
  NoDup (id <$> tasks) → tc (dependsOn tasks) x x →
  tierDirect (mkTaskMap tasks) n x = None.
Proof.
  intros Hnd. revert x. induction n as [|n IH]; intros x Hx; [done|].
  destruct (tc_loop_step _ _ Hx) as (y & Hxy & Hy).
  destruct (dependsOn_taskMap tasks x y Hnd Hxy) as (t & Ht & Hyd).
  cbn [tierDirect]. rewrite Ht.
  rewrite bool_decide_eq_false_2
    by (intros Hnil; rewrite Hnil in Hyd; by apply elem_of_nil in Hyd).
  destruct (mapM _ _) as [vs|] eqn:Hvs; [|done]. exfalso.
  apply mapM_Some in Hvs.
  assert (Hin : y ∈ filter (λ d, is_Some (mkTaskMap tasks !! d))
                           (dependencies t)).
  { apply list_elem_of_filter. split; [|done].
    destruct (tc_loop_step _ _ Hy) as (z & Hyz & _).
    destruct (dependsOn_taskMap tasks y z Hnd Hyz) as (ty & -> & _). eauto. }
  apply list_elem_of_lookup_1 in Hin as [k Hk].
  destruct (Forall2_lookup_l _ _ _ _ _ Hvs Hk) as (v & _ & Hv).
  by rewrite IH in Hv.
Qed.

(** X19. A dependency cycle makes the board's layout never finish: for a
    list of tasks with distinct identifiers in which some task depends on
    itself, directly or through other tasks, the recursion of [getTier]
    exceeds every depth. *)
Theorem computeTiers_cycle_overflows tasks x :
  NoDup (id <$> tasks) → tc (dependsOn tasks) x x →
  ∀ fuel, computeTiers fuel tasks = Overflows.
Proof.
  intros Hnd Hx fuel. unfold computeTiers.
  destruct (fillTiers _ _ _ _) as [m|] eqn:Hfill; [exfalso|done].
  destruct (fillTiers_sound _ _ _ _ _ (memo_ok_empty _) Hfill)
    as (Hok & _ & Hall).
  destruct (tc_loop_step _ _ Hx) as (y & (t & Ht & <- & _) & _).
  destruct (Hall t Ht) as [w Hw].
  destruct (Hok _ _ Hw) as [k Hk].
  by rewrite tierDirect_on_cycle in Hk.
Qed.

Lemma computeTiers_cycle_overflows_witness :
  computeTiers 100 [sampleTask "T1" ["T2"]; sampleTask "T2" ["T1"]] = Overflows.
Proof.
  apply (computeTiers_cycle_overflows
           [sampleTask "T1" ["T2"]; sampleTask "T2" ["T1"]] "T1").
  - cbn. repeat constructor; set_solver.
  - apply (tc_l _ "T1" "T2" "T1"); [|apply tc_once].
    + exists (sampleTask "T1" ["T2"]). split_and!; [set_solver|done|set_solver].
    + exists (sampleTask "T2" ["T1"]). split_and!; [set_solver|done|set_solver].
Defined.






(** X21. [buildIndexMap] numbers the cards in display order: when the
    tasks shown have distinct identifiers, the task at position [k] of
    the tiers read one after the other gets index [k] (so the indices are
    0, 1, 2, ... without gaps), and an identifier that is not shown gets
    none. *)
Theorem buildIndexMap_positions tiers :
  NoDup (id <$> concat tiers) →
  (∀ k t, concat tiers !! k = Some t → buildIndexMap tiers !! id t = Some k)
  ∧ (∀ i, i ∉ id <$> concat tiers → buildIndexMap tiers !! i = None).
Proof.
  rewrite concat_mjoin. intros Hnd. split.
  - intros k t Hk.
    destruct (buildIndexMap_lookup tiers (id t)) as (p & t' & Hp & Ht' & Hid).
    { apply list_elem_of_fmap. exists t. split; [done|].
      by eapply list_elem_of_lookup_2. }
    rewrite Hp. f_equal. eapply NoDup_lookup; [exact Hnd| |].
    + rewrite list_lookup_fmap, Ht'. cbn. by rewrite Hid.
    + by rewrite list_lookup_fmap, Hk.
  - intros i Hi. rewrite buildIndexMap_flat.
    destruct (indexFrom_spec (mjoin tiers) ∅ 0) as (m & -> & Hpos & _).
    cbn. destruct (m !! i) as [p|] eqn:Hp; [exfalso|done].
    destruct (Hpos i p Hp) as [Hempty|(_ & t & Ht & <-)].
    + by rewrite lookup_empty in Hempty.
    + apply Hi. apply list_elem_of_fmap. exists t. split; [done|].
      by eapply list_elem_of_lookup_2.
Qed.

Lemma buildIndexMap_positions_witness :
  buildIndexMap [ [sampleTask "T1" []];
                  [sampleTask "T3" ["T1"]; sampleTask "T2" ["T1"]] ]
    !! id (sampleTask "T2" ["T1"]) = Some 2.
Proof.
  apply (buildIndexMap_positions
           [ [sampleTask "T1" []];
             [sampleTask "T3" ["T1"]; sampleTask "T2" ["T1"]] ]).
  - cbn. repeat constructor; set_solver.
  - reflexivity.
Defined.

(** ** No tier is empty *)

Lemma placeTasks_length tierOf tiers ts tiers' (tier : Task → nat) :
  (∀ t, t ∈ ts → tierOrZero tierOf (id t) = Num (tier t)) →
  placeTasks tierOf tiers ts = Some tiers' →
  ∀ k, k < length tiers' → k < length tiers ∨ ∃ t, t ∈ ts ∧ k ≤ tier t.
Proof.
  revert tiers. induction ts as [|t ts IH]; intros tiers Hts Hplace k Hk.
  { cbn in Hplace. injection Hplace as <-. auto. }
  cbn [placeTasks] in Hplace.
  destruct (placeTask tierOf tiers t) as [tiers1|] eqn:H1; [|done].
  destruct (IH tiers1) with (k := k) as [Hk1|(t' & Ht' & Hle)];
    [|done|done| |].
  { intros t' Ht'. apply Hts, elem_of_cons. auto. }
  - unfold placeTask in H1. rewrite (Hts t) in H1 by (apply elem_of_cons; auto).
    injection H1 as <-.
    rewrite length_alter, length_app, length_replicate in Hk1.
    destruct (decide (k < length tiers)); [by left|right].
    exists t. split; [apply elem_of_cons; auto|lia].
  - right. exists t'. split; [apply elem_of_cons; auto|done].
Qed.

Section tiers_dense.
Context (tasks : list Task).
Hypothesis Hclosed : dep_closed tasks.
Hypothesis Hacyclic : acyclic tasks.

(** Below every tier that holds a task there is a task in each tier. *)
Lemma tierIs_below t n k :
  t ∈ tasks → tierIs tasks (id t) n → k ≤ n →
  ∃ t', t' ∈ tasks ∧ tierIs tasks (id t') k.
Proof.
  intros Ht Hn Hk. revert t Ht Hn.
  induction n as [|n IH]; intros t Ht Hn.
  { replace k with 0 by lia. eauto. }
  destruct (decide (k = S n)) as [->|Hne]; [by eauto|].
  destruct (mkTaskMap_lookup_is_Some tasks (id t)) as [t0 Ht0].
  { apply list_elem_of_fmap. eauto. }
  destruct (decide (dependencies t0 = [])) as [Hnil|Hdeps].
  { by pose proof (tierIs_root tasks (id t) t0 (S n) Ht0 Hnil Hn). }
  destruct (tierIs_step tasks Hclosed Hacyclic (id t) t0 (S n) Ht0 Hdeps Hn)
    as (ns & Hns & Heq).
  assert (Hmax : max_list ns ∈ ns).
  { apply max_list_elem_of. intros ->. apply Forall2_nil_inv_r in Hns. done. }
  apply list_elem_of_lookup_1 in Hmax as [j Hj].
  destruct (Forall2_lookup_r _ _ _ _ _ Hns Hj) as (d & Hd & Hdn).
  apply list_elem_of_lookup_2 in Hd.
  pose proof Ht0 as [Ht0in _]%mkTaskMap_lookup_Some.
  destruct (proj1 (list_elem_of_fmap _ _ _) (Hclosed t0 d Ht0in Hd))
    as (td & -> & Htd).
  apply (IH ltac:(lia) td Htd). replace n with (max_list ns) by lia. done.
Qed.

End tiers_dense.

(** X22. On a dependency-closed, acyclic task list the board has no
    empty row: in the tiers [computeTiers] returns every tier holds at
    least one task (and there is no tier at all exactly when there is no
    task). *)
Theorem computeTiers_no_empty_tier tasks :
  dep_closed tasks → acyclic tasks →
  ∃ N, ∀ fuel, N ≤ fuel →
    ∃ tiers, computeTiers fuel tasks = Returns tiers
             ∧ (∀ k tier, tiers !! k = Some tier → tier ≠ [])
             ∧ (tiers = [] ↔ tasks = []).
Proof.
  intros Hclosed Hacyclic.
  destruct (tierDirect_uniform tasks Hclosed Hacyclic (id <$> tasks))
    as [N HN].
  exists N. intros fuel Hfuel. unfold computeTiers.
  set (tm := mkTaskMap tasks) in *.
  destruct (fillTiers_ok tm fuel tasks ∅ (memo_ok_empty _))
    as (m & -> & Hok & _ & Hall).
  { intros t Ht. destruct (HN fuel (id t)) as [n Hn]; [done| |by eauto].
    apply list_elem_of_fmap. eauto. }
  assert (Htier : ∀ t, t ∈ tasks →
            ∃ n, tierOrZero m (id t) = Num n ∧ tierIs tasks (id t) n).
  { intros t Ht. destruct (Hall t Ht) as [w Hw].
    destruct (Hok _ _ Hw) as [f Hf].
    destruct (tierDirect_is_Num tasks Hclosed Hacyclic f (id t) w Hf)
      as (n & -> & Hn).
    exists n. split; [by apply tierOrZero_Num|done]. }
  set (tier := λ t, match tierOrZero m (id t) with
                    | Num n => n | NegInfinity => 0 end).
  assert (Htier' : ∀ t, t ∈ tasks → tierOrZero m (id t) = Num (tier t)).
  { intros t Ht. destruct (Htier t Ht) as (n & Hn & _).
    unfold tier. by rewrite Hn. }
  destruct (placeTasks_ok m [] tasks tier Htier')
    as (tiers & Hplace & Hperm & Hin).
  rewrite Hplace. exists tiers. split; [done|]. split.
  - intros k rowk Hk ->.
    destruct (placeTasks_length m [] tasks tiers tier Htier' Hplace k)
      as [Hk0|(t & Ht & Hle)].
    { by eapply lookup_lt_Some. }
    { cbn in Hk0. lia. }
    destruct (Htier t Ht) as (n & Hn & Hn').
    assert (tier t = n) as Heq by (unfold tier; by rewrite Hn).
    destruct (tierIs_below tasks Hclosed Hacyclic t n k Ht Hn')
      as (t' & Ht' & Hk'); [lia|].
    assert (inTier tiers k t') as (row & Hrow & Hmem).
    { apply Hin. right. split; [done|].
      destruct (Htier t' Ht') as (n' & Hn1 & Hn2).
      unfold tier. rewrite Hn1. by eapply tierIs_fun. }
    rewrite Hk in Hrow. injection Hrow as <-. by apply elem_of_nil in Hmem.
  - cbn in Hperm. split.
    + intros ->. cbn in Hperm. by apply Permutation_nil_l in Hperm.
    + intros ->. cbn in Hplace. by injection Hplace as <-.
Qed.

Lemma computeTiers_no_empty_tier_witness :
  ∃ N, ∀ fuel, N ≤ fuel →
    ∃ tiers, computeTiers fuel diamondOrdered = Returns tiers
             ∧ (∀ k tier, tiers !! k = Some tier → tier ≠ [])
             ∧ (tiers = [] ↔ diamondOrdered = []).
Proof.
  assert (H : orderedAfter [] diamondOrdered = true) by (vm_compute; reflexivity).
  destruct (orderedAfter_sound _ H) as (_ & Hclosed & Hacyclic).
  exact (computeTiers_no_empty_tier diamondOrdered Hclosed Hacyclic).
Defined.

(** ** [slugify] *)

(** Case analysis over the 256 code units. *)
Ltac each_unit c :=
  destruct c as [[] [] [] [] [] [] [] []]; vm_compute; try done.

Lemma toLowerUnit_slug c : isSlugUnit c = true → toLowerUnit c = c.
Proof. each_unit c. Qed.

Lemma isSlugUnit_not_space c : isSlugUnit c = true → isSpace c = false.
Proof. each_unit c. Qed.

Lemma isLowerAZ_slug c : isLowerAZ c = true → isSlugUnit c = true.
Proof. each_unit c. Qed.

Lemma kept_unit c :
  Is_true (isLowerAZ c || isDigit09 c || isSpace c || Ascii.eqb c "_"%char) →
  isSpace c = true ∨ isSlugUnit c = true.
Proof. each_unit c; auto. Qed.

Lemma slug_unit_kept c :
  isSlugUnit c = true →
  Is_true (isLowerAZ c || isDigit09 c || isSpace c || Ascii.eqb c "_"%char).
Proof. each_unit c. Qed.

Lemma collapseSpace_slug inRun l :
  Forall (λ c, isSpace c = true ∨ isSlugUnit c = true) l →
  Forall (λ c, isSlugUnit c = true) (collapseSpace inRun l).
Proof.
  intros Hl. revert inRun. induction Hl as [|c l Hc _ IH]; intros inRun;
    [constructor|].
  cbn [collapseSpace]. destruct (isSpace c) eqn:Hsp.
  - destruct inRun; [apply IH|]. constructor; [done|apply IH].
  - constructor; [|apply IH]. destruct Hc; congruence.
Qed.

Lemma collapseSpace_id l :
  Forall (λ c, isSpace c = false) l → collapseSpace false l = l.
Proof.
  induction 1 as [|c l Hc _ IH]; [done|].
  cbn [collapseSpace]. by rewrite Hc, IH.
Qed.

Lemma dropSpace_id l :
  Forall (λ c, isSpace c = false) l → dropSpace l = l.
Proof. destruct 1 as [|c l Hc _]; [done|]. cbn. by rewrite Hc. Qed.

Lemma trimUnits_id l :
  Forall (λ c, isSpace c = false) l → trimUnits l = l.
Proof.
  intros Hl. unfold trimUnits. rewrite (dropSpace_id l Hl).
  rewrite dropSpace_id by (by apply Forall_reverse).
  apply reverse_involutive.
Qed.

Lemma slugifyUnits_shaped l : slugShaped (slugifyUnits l).
Proof.
  unfold slugifyUnits.
  set (kept := filter _ _).
  assert (Hkept : Forall (λ c, isSpace c = true ∨ isSlugUnit c = true) kept).
  { apply Forall_forall. intros c [Hc _]%list_elem_of_filter.
    by apply kept_unit. }
  pose proof (collapseSpace_slug false kept Hkept) as Hcol.
  set (col := collapseSpace false kept) in *.
  assert (Hpre : Forall (λ c, isSlugUnit c = true) (prefixLetter col)
                 ∧ ∀ c, head (prefixLetter col) = Some c → isLowerAZ c = true).
  { unfold prefixLetter. destruct col as [|c col']; [by split|].
    destruct (isLowerAZ c) eqn:Hc.
    - split; [done|]. intros c' [= <-]. done.
    - split; [by constructor|]. by intros c' [= <-]. }
  destruct Hpre as [Hpre Hhead]. split_and!.
  - by apply Forall_take.
  - rewrite length_take. lia.
  - intros c Hc. apply Hhead. destruct (prefixLetter col); [done|].
    cbn in Hc. done.
Qed.

Lemma slugifyUnits_fixed r : slugShaped r → slugifyUnits r = r.
Proof.
  intros (Hslug & Hlen & Hhead). unfold slugifyUnits.
  assert (Hns : Forall (λ c, isSpace c = false) r).
  { eapply Forall_impl; [exact Hslug|]. apply isSlugUnit_not_space. }
  assert (toLowerUnit <$> r = r) as ->.
  { clear -Hslug. induction Hslug as [|c r Hc _ IH]; [done|].
    cbn. by rewrite (toLowerUnit_slug c Hc), IH. }
  rewrite (trimUnits_id r Hns).
  rewrite filter_all
    by (eapply Forall_impl; [exact Hslug|]; apply slug_unit_kept).
  rewrite (collapseSpace_id r Hns).
  assert (prefixLetter r = r) as ->.
  { unfold prefixLetter. destruct r as [|c r']; [done|].
    by rewrite (Hhead c eq_refl). }
  by apply take_ge.
Qed.

(** X23. An agent type made by [slugify] is always a usable identifier:
    at most 60 units long, made of [a-z], [0-9] and underscores only, and
    starting with a letter unless it is empty. *)
Theorem slugify_shape name :
  let r := String.list_ascii_of_string (slugify name) in
  Forall (λ c, isSlugUnit c = true) r
  ∧ length r ≤ 60
  ∧ ∀ c, head r = Some c → isLowerAZ c = true.
Proof.
  cbn zeta. unfold slugify.
  rewrite String.list_ascii_of_string_of_list_ascii.
  apply slugifyUnits_shaped.
Qed.

(** X24. [slugify] is idempotent: an agent type it produced is left
    unchanged when the name field is filled with it, so
    [handleNameChange] fed its own result does not move the agent
    type. *)
Theorem slugify_idempotent name :
  slugify (slugify name) = slugify name
  ∧ ∀ st, an_agentTypeManual st = false →
      an_agentType (handleNameChange
                      (an_agentType (handleNameChange name st))
                      (handleNameChange name st))
      = an_agentType (handleNameChange name st).
Proof.
  assert (H : slugify (slugify name) = slugify name).
  { unfold slugify. rewrite String.list_ascii_of_string_of_list_ascii.
    by rewrite (slugifyUnits_fixed _ (slugifyUnits_shaped _)). }
  split; [done|]. intros st Hman. unfold handleNameChange. cbn.
  by rewrite Hman.
Qed.

Example slugify_examples :
  slugify "  My Agent: v2!  " = "my_agent_v2"
  ∧ slugify "2fast 4u" = "a2fast_4u"
  ∧ slugify "a   b" = "a_b"
  ∧ slugify "!!!" = ""
  ∧ slugify "! x" = "a_x".
Proof. vm_compute. done. Qed.

(** ** Grouping *)

Section grouping.
Context {A : Type} (key : A → string).

Let members (k : string) (xs : list A) : list A :=
  filter (λ x, key x = k) xs.

Lemma members_snoc k xs x :
  members k (xs ++ [x])
  = members k xs ++ (if decide (key x = k) then [x] else []).
Proof.
  unfold members. by rewrite filter_app.
Qed.

Lemma members_key k xs y : y ∈ members k xs → y ∈ xs ∧ key y = k.
Proof. unfold members. rewrite list_elem_of_filter. tauto. Qed.

Lemma groupAll_snoc xs x :
  groupAll key (xs ++ [x])
  = groupAll key xs ≫= λ groups, groupPush key groups x.
Proof. unfold groupAll. by rewrite foldl_snoc. Qed.

(** The loop throws exactly when some key names a member of
    [Object.prototype]; otherwise the object has one property per key
    that occurs, holding the elements of that key in order. *)
Lemma groupAll_spec xs :
  match groupAll key xs with
  | Some groups =>
      Forall (λ x, key x ∉ objectPrototypeKeys) xs
      ∧ ∀ k g, groups !! k = Some g ↔ g = members k xs ∧ g ≠ []
  | None => Exists (λ x, key x ∈ objectPrototypeKeys) xs
  end.
Proof.
  induction xs as [|x xs IH] using rev_ind.
  { cbn. split; [constructor|]. intros k g. rewrite lookup_empty.
    split; [done|]. by intros [-> ?]. }
  rewrite groupAll_snoc.
  destruct (groupAll key xs) as [groups|]; cbn [mbind option_bind];
    [|apply Exists_app; by left].
  destruct IH as [Hall Hmem]. unfold groupPush.
  destruct (getProp_cases groups (key x))
    as [(g0 & Hg0 & ->)|[(Hnone & Hk & ->)|[[Hnone Hk] ->]]].
  - (* the key has a list already *)
    pose proof Hg0 as [-> Hne]%Hmem.
    assert (key x ∉ objectPrototypeKeys) as Hk.
    { destruct (members (key x) xs) as [|y ys] eqn:Hm; [done|].
      assert (y ∈ members (key x) xs) as [Hy <-]%members_key
        by (rewrite Hm; left).
      by eapply Forall_forall in Hall. }
    split.
    { apply Forall_app. split; [done|]. by constructor. }
    intros k g. rewrite members_snoc.
    destruct (decide (key x = k)) as [<-|Hkx].
    + rewrite lookup_insert_eq. split.
      * intros [= <-]. split; [done|]. by intros [? _]%app_eq_nil.
      * by intros [-> _].
    + rewrite lookup_insert_ne, app_nil_r by done. apply Hmem.
  - (* a new key *)
    assert (Hempty : members (key x) xs = []).
    { destruct (members (key x) xs) as [|y ys] eqn:Hm; [done|].
      assert (groups !! key x = Some (y :: ys)) as Hsome
        by (apply Hmem; by rewrite Hm).
      by rewrite Hnone in Hsome. }
    split.
    { apply Forall_app. split; [done|]. by constructor. }
    intros k g. rewrite members_snoc.
    destruct (decide (key x = k)) as [<-|Hkx].
    + rewrite lookup_insert_eq, Hempty. split.
      * by intros [= <-].
      * by intros [-> _].
    + rewrite lookup_insert_ne, app_nil_r by done. apply Hmem.
  - (* the read finds a member of Object.prototype *)
    apply Exists_app. right. by left.
Qed.

Lemma groupAll_throws xs :
  Exists (λ x, key x ∈ objectPrototypeKeys) xs → groupAll key xs = None.
Proof.
  intros Hex. pose proof (groupAll_spec xs) as Hspec.
  destruct (groupAll key xs) as [groups|]; [|done].
  destruct Hspec as [Hall _]. apply Exists_exists in Hex as (x & Hx & Hk).
  by eapply Forall_forall in Hall.
Qed.

Lemma groupAll_returns xs :
  Forall (λ x, key x ∉ objectPrototypeKeys) xs →
  ∃ groups, groupAll key xs = Some groups
            ∧ ∀ k g, groups !! k = Some g
                     ↔ g = filter (λ x, key x = k) xs ∧ g ≠ [].
Proof.
  intros Hall. pose proof (groupAll_spec xs) as Hspec.
  destruct (groupAll key xs) as [groups|].
  - exists groups. split; [done|]. apply Hspec.
  - apply Exists_exists in Hspec as (x & Hx & Hk).
    by eapply Forall_forall in Hall.
Qed.

End grouping.

(** X25. When no category names a member of [Object.prototype], the tool
    selector's grouping has exactly one group per category that occurs,
    holding the tools of that category in catalog order, so every tool is
    shown once, under its own category, and no group is empty.  When some
    category does ("constructor", "toString", ...), the grouping throws
    and the selector renders nothing.  The model selectors group models
    by provider in the same way. *)
Theorem byCategory_partition tools models :
  (Forall (λ t, tool_category t ∉ objectPrototypeKeys) tools →
   ∃ groups, byCategory tools = Some groups
     ∧ ∀ category entries,
         groups !! category = Some entries
         ↔ entries = filter (λ t, tool_category t = category) tools
           ∧ entries ≠ [])
  ∧ (Exists (λ t, tool_category t ∈ objectPrototypeKeys) tools →
     byCategory tools = None)
  ∧ (Forall (λ m, model_provider m ∉ objectPrototypeKeys) models →
     ∃ groups, modelsByProvider models = Some groups
       ∧ ∀ provider group,
           groups !! provider = Some group
           ↔ group = filter (λ m, model_provider m = provider) models
             ∧ group ≠ [])
  ∧ (Exists (λ m, model_provider m ∈ objectPrototypeKeys) models →
     modelsByProvider models = None).
Proof.
  split_and!.
  - apply groupAll_returns.
  - apply groupAll_throws.
  - apply groupAll_returns.
  - apply groupAll_throws.
Qed.

Example byCategory_examples :
  let tool i c := mkTool i i c "" "" "" None in
  byCategory [tool "pandas" "data"; tool "requests" "web";
              tool "numpy" "data"]
  = Some {[ "data" := [tool "pandas" "data"; tool "numpy" "data"];
            "web" := [tool "requests" "web"] ]}
  ∧ byCategory [tool "pandas" "data"; tool "x" "constructor"] = None.
Proof. split; [|reflexivity]. vm_compute. reflexivity. Qed.

(** ** [trim] and the add-task dialog *)

Lemma dropSpace_split l :
  ∃ pre, l = pre ++ dropSpace l ∧ Forall (λ c, isSpace c = true) pre.
Proof.
  induction l as [|c l (pre & Hl & Hpre)]; [by exists []|].
  cbn [dropSpace]. destruct (isSpace c) eqn:Hc.
  - exists (c :: pre). split; [cbn; by f_equal|by constructor].
  - by exists [].
Qed.

Lemma dropSpace_head l c : head (dropSpace l) = Some c → isSpace c = false.
Proof.
  induction l as [|c' l IH]; [done|]. cbn [dropSpace].
  destruct (isSpace c') eqn:Hc'; [done|]. by intros [= <-].
Qed.

Lemma dropSpace_fixed l :
  (∀ c, head l = Some c → isSpace c = false) → dropSpace l = l.
Proof. destruct l as [|c l]; [done|]. intros H. cbn. by rewrite (H c). Qed.

Lemma dropSpace_nil l :
  dropSpace l = [] ↔ Forall (λ c, isSpace c = true) l.
Proof.
  split.
  - intros Hnil. destruct (dropSpace_split l) as (pre & Hl & Hpre).
    rewrite Hnil, app_nil_r in Hl. by subst.
  - induction 1 as [|c l Hc _ IH]; [done|]. cbn. by rewrite Hc.
Qed.

Lemma trimUnits_ends l :
  (∀ c, head (trimUnits l) = Some c → isSpace c = false)
  ∧ (∀ c, last (trimUnits l) = Some c → isSpace c = false).
Proof.
  unfold trimUnits. set (m := dropSpace l). set (k := dropSpace (reverse m)).
  split.
  - intros c Hc.
    destruct (dropSpace_split (reverse m)) as (pre & Hm & _). fold k in Hm.
    apply (f_equal reverse) in Hm.
    rewrite reverse_involutive, reverse_app in Hm.
    apply (dropSpace_head l c). fold m. rewrite Hm.
    destruct (reverse k) as [|c' k']; [done|]. done.
  - intros c Hc. rewrite last_reverse in Hc. by apply (dropSpace_head (reverse m)).
Qed.

Lemma trimUnits_idempotent l : trimUnits (trimUnits l) = trimUnits l.
Proof.
  destruct (trimUnits_ends l) as [Hhead Hlast].
  unfold trimUnits at 1. rewrite (dropSpace_fixed _ Hhead).
  rewrite dropSpace_fixed; [apply reverse_involutive|].
  intros c Hc. apply Hlast. by rewrite <- head_reverse.
Qed.

Lemma trimUnits_nil l :
  trimUnits l = [] ↔ Forall (λ c, isSpace c = true) l.
Proof.
  unfold trimUnits. split.
  - intros H. apply (f_equal reverse) in H.
    rewrite reverse_involutive in H. cbn in H.
    apply dropSpace_nil in H. apply Forall_reverse in H.
    rewrite reverse_involutive in H.
    destruct (dropSpace_split l) as (pre & Hl & Hpre). rewrite Hl.
    by apply Forall_app.
  - intros H. apply dropSpace_nil in H. by rewrite H.
Qed.

Lemma truthy_trim s :
  truthy (trim s) = false
  ↔ Forall (λ c, isSpace c = true) (String.list_ascii_of_string s).
Proof.
  rewrite <- trimUnits_nil. unfold truthy, trim.
  rewrite negb_false_iff, String.eqb_eq. split.
  - intros H. apply (f_equal String.list_ascii_of_string) in H.
    by rewrite String.list_ascii_of_string_of_list_ascii in H.
  - by intros ->.
Qed.

(** X26. For a prompt made of code units below 256 (the range of
    [trim] and [isSpace] here; white space above it, such as U+2028 or
    U+3000, is not covered): a task is never created with a blank prompt
    or a prompt with white space around it.  The dialog sends nothing,
    and keeps its state, when the prompt is all white space; otherwise it
    sends the trimmed, non-empty prompt with the selected dependencies,
    closes and clears when the request succeeds, and keeps what the user
    typed when it fails. *)
Theorem handleSubmit_sends_trimmed actionId ok st :
  (Forall (λ c, isSpace c = true) (String.list_ascii_of_string (ad_prompt st))
   → handleSubmit actionId ok st = (None, st))
  ∧ (¬ Forall (λ c, isSpace c = true)
         (String.list_ascii_of_string (ad_prompt st))
     → ∃ req, handleSubmit actionId ok st
              = (Some req, if ok then mkAddTask false "" [] else st)
         ∧ ct_actionId req = actionId
         ∧ ct_dependencies req = ad_selectedDeps st
         ∧ ct_prompt req = trim (ad_prompt st)
         ∧ ct_prompt req ≠ ""
         ∧ trim (ct_prompt req) = ct_prompt req).
Proof.
  unfold handleSubmit. split.
  - intros Hblank. by rewrite (proj2 (truthy_trim _) Hblank).
  - intros Hnot. destruct (truthy (trim (ad_prompt st))) eqn:Htr.
    2:{ by apply truthy_trim in Htr. }
    eexists. split; [done|].
    cbn [ct_actionId ct_dependencies ct_prompt]. split_and!; try done.
    + intros Hnil. unfold truthy in Htr. by rewrite Hnil in Htr.
    + unfold trim.
      rewrite String.list_ascii_of_string_of_list_ascii.
      by rewrite trimUnits_idempotent.
Qed.

Example handleSubmit_examples :
  handleSubmit "a1" true (mkAddTask true "  plot it  " ["T1"])
  = (Some (mkCreateTask "a1" "plot it" ["T1"]), mkAddTask false "" [])
  ∧ handleSubmit "a1" false (mkAddTask true "  plot it  " ["T1"])
    = (Some (mkCreateTask "a1" "plot it" ["T1"]),
       mkAddTask true "  plot it  " ["T1"])
  ∧ handleSubmit "a1" true (mkAddTask true "   " ["T1"])
    = (None, mkAddTask true "   " ["T1"]).
Proof. vm_compute. done. Qed.

(** ** Code execution events *)

Lemma setCodeExecution_lookup taskId data st :
  codeExecutions (setCodeExecution taskId data st) !! taskId
  = Some (mergeCode
            match getProp (codeExecutions st) taskId with
            | Own old => old
            | Undefined => fullCode defaultCodeState
            | Inherited => noCode
            end data).
Proof. unfold setCodeExecution. cbn. by rewrite lookup_insert_eq. Qed.

Lemma setCodeExecution_lookup_ne taskId data st other :
  other ≠ taskId →
  codeExecutions (setCodeExecution taskId data st) !! other
  = codeExecutions st !! other.
Proof. intros. unfold setCodeExecution. cbn. by rewrite lookup_insert_ne. Qed.

(** The store after each of the three code events. *)
Lemma onEvent_code_events actionId now data c :
  otherAction (currentActionId (store c)) actionId = false →
  store (onEvent actionId now "code.started" data c)
  = setCodeExecution (d_task_id data)
      (mkPartialCode (Some "running") (Some "") (Some "") (Some [])) (store c)
  ∧ store (onEvent actionId now "code.failed" data c)
    = setCodeExecution (d_task_id data)
        (mkPartialCode (Some "failed") None
           (Some (str_or (d_stderr data) (str_or (d_error data) ""))) None)
        (store c)
  ∧ store (onEvent actionId now "code.completed" data c)
    = setCodeExecution (d_task_id data)
        (mkPartialCode (Some "completed")
           (Some (str_or (d_stdout_preview data) "")) None
           (Some (default [] (d_artifact_ids data))))
        (store c).
Proof. intros Hc. unfold onEvent. rewrite Hc. done. Qed.

(** X27. What the code events record for a task: [code.started] starts
    from scratch (running, no output, no artifacts), whatever was
    recorded.  [code.failed] replaces status and error text (the event's
    stderr, else its error, else nothing) and [code.completed] replaces
    status, standard output and artifacts; the fields they do not
    replace are those of the task's record if it has one, the defaults
    if it has none, and are missing from the new record if it has none
    and its identifier names a member of [Object.prototype].  A record
    with all four fields keeps all four, and the records of other tasks
    are untouched. *)
Theorem code_events_update_execution actionId now data c :
  otherAction (currentActionId (store c)) actionId = false →
  let taskId := d_task_id data in
  let recorded event :=
    codeExecutions (store (onEvent actionId now event data c)) !! taskId in
  let errorText := str_or (d_stderr data) (str_or (d_error data) "") in
  let output := str_or (d_stdout_preview data) "" in
  let produced := default [] (d_artifact_ids data) in
  recorded "code.started" = Some (fullCode (mkCode "running" "" "" []))
  ∧ (∀ old, codeExecutions (store c) !! taskId = Some old →
       recorded "code.failed"
       = Some (mkPartialCode (Some "failed") (pc_stdout old)
                 (Some errorText) (pc_artifactIds old))
       ∧ recorded "code.completed"
         = Some (mkPartialCode (Some "completed") (Some output)
                   (pc_stderr old) (Some produced)))
  ∧ (codeExecutions (store c) !! taskId = None →
     taskId ∉ objectPrototypeKeys →
       recorded "code.failed"
       = Some (fullCode (mkCode "failed" "" errorText []))
       ∧ recorded "code.completed"
         = Some (fullCode (mkCode "completed" output "" produced)))
  ∧ (readsInherited (codeExecutions (store c)) taskId →
       recorded "code.failed"
       = Some (mkPartialCode (Some "failed") None (Some errorText) None)
       ∧ recorded "code.completed"
         = Some (mkPartialCode (Some "completed") (Some output) None
                   (Some produced)))
  ∧ (∀ event s, event = "code.failed" ∨ event = "code.completed" →
       codeExecutions (store c) !! taskId = Some (fullCode s) →
       ∃ s', recorded event = Some (fullCode s'))
  ∧ ∀ event other, other ≠ taskId →
      event = "code.started" ∨ event = "code.failed"
      ∨ event = "code.completed" →
      codeExecutions (store (onEvent actionId now event data c)) !! other
      = codeExecutions (store c) !! other.
Proof.
  intros Hc. cbn zeta.
  destruct (onEvent_code_events actionId now data c Hc)
    as (Hstarted & Hfailed & Hcompleted).
  rewrite Hstarted, Hfailed, Hcompleted, !setCodeExecution_lookup.
  split_and!.
  - by destruct (getProp _ _) as [[]| |].
  - intros old Hold. by rewrite (getProp_own _ _ _ Hold).
  - intros Hnone Hk. by rewrite (getProp_undefined _ _ Hnone Hk).
  - intros Hk. by rewrite (getProp_inherited _ _ Hk).
  - intros event s [-> | ->] Hold.
    + rewrite Hfailed, setCodeExecution_lookup, (getProp_own _ _ _ Hold).
      by exists (mkCode "failed" (stdout s)
                   (str_or (d_stderr data) (str_or (d_error data) ""))
                   (artifactIds s)).
    + rewrite Hcompleted, setCodeExecution_lookup, (getProp_own _ _ _ Hold).
      by exists (mkCode "completed" (str_or (d_stdout_preview data) "")
                   (stderr s) (default [] (d_artifact_ids data))).
  - intros event other Hne [-> | [-> | ->]];
      rewrite ?Hstarted, ?Hfailed, ?Hcompleted;
      by apply setCodeExecution_lookup_ne.
Qed.

Lemma code_events_update_execution_witness :
  codeExecutions
    (store (onEvent "a1" "later" "code.failed" (dataFor "t1")
              (onEvent "a1" "now" "code.completed"
                 (mkData [] None "t1" "" "" "" "" 0 (Some ["art1"]) "42" "")
                 (clientShowing "a1")))) !! "t1"
  = Some (fullCode (mkCode "failed" "42" "boom" ["art1"])).
Proof.
  destruct (code_events_update_execution "a1" "later" (dataFor "t1")
              (onEvent "a1" "now" "code.completed"
                 (mkData [] None "t1" "" "" "" "" 0 (Some ["art1"]) "42" "")
                 (clientShowing "a1")))
    as (_ & Hown & _); [reflexivity|].
  destruct (Hown (fullCode (mkCode "completed" "42" "" ["art1"])))
    as [Hfailed _]; [vm_compute; reflexivity|].
  exact Hfailed.
Defined.

(** A failure reported for the task "valueOf" before any start leaves a
    record without standard output and artifacts. *)
Example code_failed_on_prototype_key :
  codeExecutions
    (store (onEvent "a1" "now" "code.failed" (dataFor "valueOf")
              (clientShowing "a1"))) !! "valueOf"
  = Some (mkPartialCode (Some "failed") None (Some "boom") None).
Proof. vm_compute. reflexivity. Qed.
